(** * CallMediaQueue: pacing and gain adjustment of outbound call audio

    A shallow embedding of the class [CallMediaQueue] of
    [telecom/src/queue.ts] (the source file holds two versions of the class;
    the first one, with the buffer limit and the checked setters, is the one
    modelled here, the earlier one follows in [Previous]).  The class keeps a bounded FIFO of socket messages, sends them
    one at a time from a timer whose delay is the play length of the packet
    sent before, and has a volume adjustment for 16-bit little-endian PCM.

    - JavaScript numbers are IEEE 754 binary64 values: they are the
      Standard Library's [spec_float] at precision 53 and maximal exponent
      1024, multiplied and divided by its [SFmul] and [SFdiv] (round to
      nearest even) and compared by value.
    - The object is a record; its methods run in a state monad with
      exceptions.  What the object does to the outside is kept in the same
      record: the messages handed to [socket.send], the delays of the pending
      timers, the arguments of [emit('mark', _)] and the console lines.
    - [socket.send] belongs to the [ws] library and may throw (it does on a
      socket that is not open yet): whether it does is a parameter of the
      model, the class [WebSocket].
    - [Buffer.from(_, 'base64')] and [toString('base64')] are parameters of
      the model; [JSON.parse] is outside it, the message handler takes the
      outcome of the parse. *)

From Stdlib Require Import ZArith Lia Bool String Ascii.
From Stdlib.Floats Require Import SpecFloat.
From stdpp Require Import base list.

Local Open Scope Z_scope.

(** ** JavaScript numbers and values *)

Module JS.

Definition prec : Z := 53.
Definition emax : Z := 1024.

Definition number : Type := spec_float.

Definition js_NaN : number := S754_nan.

(** An integer as a number (array lengths, samples, literals). *)
Definition num_of_Z (z : Z) : number := binary_normalize prec emax z 0 false.
Definition num_of_nat (n : nat) : number := num_of_Z (Z.of_nat n).

(** [x * y] and [x / y]. *)
Definition js_mul (x y : number) : number := SFmul prec emax x y.
Definition js_div (x y : number) : number := SFdiv prec emax x y.

(** The signed mantissa and the exponent of a zero or finite number: its
    value is [m * 2^e]. *)
Definition dyadic (x : number) : option (Z * Z) :=
  match x with
  | S754_zero _ => Some (0, 0)
  | S754_finite s m e => Some (cond_Zopp s (Zpos m), e)
  | _ => None
  end.

Definition cmp_dyadic (a b : Z * Z) : comparison :=
  let E := Z.min (snd a) (snd b) in
  (fst a * 2 ^ (snd a - E)) ?= (fst b * 2 ^ (snd b - E)).

(** IEEE comparison: the order of the values, [None] when one side is NaN;
    the two zeros are equal. *)
Definition js_compare (x y : number) : option comparison :=
  match x, y with
  | S754_nan, _ | _, S754_nan => None
  | S754_infinity s1, S754_infinity s2 =>
      Some (match s1, s2 with
            | true, false => Lt
            | false, true => Gt
            | _, _ => Eq
            end)
  | S754_infinity s, _ => Some (if s then Lt else Gt)
  | _, S754_infinity s => Some (if s then Gt else Lt)
  | _, _ =>
      match dyadic x, dyadic y with
      | Some a, Some b => Some (cmp_dyadic a b)
      | _, _ => None
      end
  end.

(** [x < y], [x > y], [x >= y], [x === y] on numbers. *)
Definition js_lt (x y : number) : bool :=
  match js_compare x y with Some Lt => true | _ => false end.
Definition js_gt (x y : number) : bool :=
  match js_compare x y with Some Gt => true | _ => false end.
Definition js_ge (x y : number) : bool :=
  match js_compare x y with Some (Gt | Eq) => true | _ => false end.
Definition js_le (x y : number) : bool :=
  match js_compare x y with Some (Lt | Eq) => true | _ => false end.
Definition js_seq (x y : number) : bool :=
  match js_compare x y with Some Eq => true | _ => false end.

(** The floor of the value of a zero or finite number, as an integer. *)
Definition Zfloor (x : number) : Z :=
  match x with
  | S754_finite s m e =>
      if 0 <=? e then cond_Zopp s (Zpos m) * 2 ^ e
      else cond_Zopp s (Zpos m) / 2 ^ (- e)
  | _ => 0
  end.

(** [Math.floor]: NaN, the infinities, the zeros and the numbers without a
    fractional part are returned as they are. *)
Definition Math_floor (x : number) : number :=
  match x with
  | S754_finite s m e => if 0 <=? e then x else num_of_Z (Zfloor x)
  | _ => x
  end.

(** [Math.max] and [Math.min] of two numbers: NaN if either is NaN, and
    [-0] counts as smaller than [+0]. *)
Definition Math_max (x y : number) : number :=
  match js_compare x y with
  | None => js_NaN
  | Some Gt => x
  | Some Lt => y
  | Some Eq => match x with S754_zero true => y | _ => x end
  end.

Definition Math_min (x y : number) : number :=
  match js_compare x y with
  | None => js_NaN
  | Some Lt => x
  | Some Gt => y
  | Some Eq => match x with S754_zero false => y | _ => x end
  end.

(** The integer part of a number (towards zero); NaN and the infinities
    give 0, as in [ToInt32] and [ToUint8]. *)
Definition truncate (x : number) : Z :=
  match x with
  | S754_finite s m e =>
      cond_Zopp s (if 0 <=? e then Zpos m * 2 ^ e else Zpos m / 2 ^ (- e))
  | _ => 0
  end.

Definition ToUint8 (x : number) : Z := truncate x mod 2 ^ 8.
Definition ToUint32 (x : number) : Z := truncate x mod 2 ^ 32.
(** [x >>> k], an unsigned 32-bit integer. *)
Definition js_ushr (x : number) (k : Z) : Z := Z.shiftr (ToUint32 x) k.
(** [ToInt32] of an integer, as done by the bitwise operators. *)
Definition ToInt32 (z : Z) : Z :=
  let u := z mod 2 ^ 32 in if u <? 2 ^ 31 then u else u - 2 ^ 32.

(** Values: what a caller can pass where TypeScript says [number], and what
    [JSON.parse] returns. *)
#[local] Unset Elimination Schemes.
Inductive value :=
| VUndefined
| VNull
| VBool (b : bool)
| VNumber (n : number)
| VString (s : string)
| VArray (items : list value)
| VObject (fields : list (string * value)).

#[local] Set Elimination Schemes.

Definition typeof_number (v : value) : option number :=
  match v with VNumber n => Some n | _ => None end.

(** What the code can throw. *)
Inductive exn :=
| ERR_OUT_OF_RANGE
| TypeError
| SyntaxError
| Error (message : string)
| OutOfFuel.

Definition result (A : Type) : Type := exn + A.

End JS.

Import JS.

(** ** Node's [Buffer], as far as the class uses it *)

Module Buffer.

Abbreviation t := (list Byte.byte).

Definition byte_to_Z (b : Byte.byte) : Z := Z.of_N (Byte.to_N b).

(** Storing an integer into a byte keeps it modulo 256. *)
Definition byte_of_Z (z : Z) : Byte.byte :=
  default Byte.x00 (Byte.of_N (Z.to_N (z mod 2 ^ 8))).

(** [Buffer.alloc(size)]: zero-filled. *)
Definition alloc (size : nat) : t := replicate size Byte.x00.

(** [val | (val & 2 ** 15) * 0x1fffe]: the bitwise or works on 32-bit
    integers, which extends the sign of a 16-bit [val]. *)
Definition sign_extend16 (val : Z) : Z :=
  ToInt32 (Z.lor val (Z.land val (2 ^ 15) * 131070)).

(** [buf.readInt16LE(offset)]:
    [val = first + last * 2 ** 8; return val | (val & 2 ** 15) * 0x1fffe]. *)
Definition readInt16LE (buf : t) (offset : nat) : result Z :=
  match buf !! offset, buf !! (offset + 1)%nat with
  | Some first, Some last =>
      let val := byte_to_Z first + byte_to_Z last * 2 ^ 8 in
      inr (sign_extend16 val)
  | _, _ => inl ERR_OUT_OF_RANGE
  end.

(** [buf.writeInt16LE(value, offset)]: [value] is checked against
    [-0x8000 .. 0x7fff], the offset against the buffer, then
    [buf[offset] = value; buf[offset + 1] = value >>> 8]. *)
Definition writeInt16LE (buf : t) (value : number) (offset : nat) : result t :=
  if js_gt value (num_of_Z 32767) || js_lt value (num_of_Z (-32768))
  then inl ERR_OUT_OF_RANGE
  else
    match buf !! offset, buf !! (offset + 1)%nat with
    | Some _, Some _ =>
        inr (<[(offset + 1)%nat := byte_of_Z (js_ushr value 8)]>
               (<[offset := byte_of_Z (ToUint8 value)]> buf))
    | _, _ => inl ERR_OUT_OF_RANGE
    end.

End Buffer.

(** ** What the runtime supplies

    [Buffer.from(s, 'base64')] and [buf.toString('base64')] belong to Node,
    not to this repository: the class is modelled over any pair of such
    functions. *)

Class Base64 := {
  base64_decode : string -> Buffer.t;
  base64_encode : Buffer.t -> string
}.

(** ** Messages *)

Inductive EventKind := ev_media | ev_mark | ev_clear.

Record MediaField := { payload : string }.
Record MarkField := { name : string }.

(** [interface SocketMessage]: the two fields are optional. *)
Record SocketMessage := {
  event : EventKind;
  media : option MediaField;
  mark : option MarkField
}.

(** The object that [sendToTwilio] serialises and hands to [socket.send]. *)
Record WireMessage := {
  w_event : EventKind;
  w_streamSid : string;
  w_media : option MediaField;
  w_mark : option MarkField
}.

Inductive LogLine :=
| console_warn_line (text : string)
| console_error_line (text : string) (error : exn).

(** ** The object and the world it acts on *)

Record CallMediaQueue := {
  queue : list SocketMessage;
  isSending : bool;
  streamSid : string;
  packetDuration : number;
  volumeLevel : number;
  bufferLimit : number;
  (** messages handed to [socket.send], oldest first, whether it took them
      or threw *)
  socket : list WireMessage;
  (** delays of the pending [setTimeout(() => this.sendNext(), delay)] *)
  timers : list number;
  (** arguments of [this.emit('mark', _)], oldest first *)
  emitted : list value;
  console : list LogLine
}.

(** The audio format is assigned once by the constructor. *)
Definition channels : number := num_of_Z 1.
Definition sampleRate : number := num_of_Z 16000.
Definition bytesPerSample : number := num_of_Z 2.

Definition constructor (sid : string) : CallMediaQueue :=
  {| queue := []; isSending := false; streamSid := sid;
     packetDuration := num_of_Z 0; volumeLevel := num_of_Z 1;
     bufferLimit := num_of_Z 1000;
     socket := []; timers := []; emitted := []; console := [] |}.

Definition set_queue (q : list SocketMessage) (s : CallMediaQueue) :=
  {| queue := q; isSending := isSending s; streamSid := streamSid s;
     packetDuration := packetDuration s; volumeLevel := volumeLevel s;
     bufferLimit := bufferLimit s; socket := socket s; timers := timers s;
     emitted := emitted s; console := console s |}.
Definition set_isSending (b : bool) (s : CallMediaQueue) :=
  {| queue := queue s; isSending := b; streamSid := streamSid s;
     packetDuration := packetDuration s; volumeLevel := volumeLevel s;
     bufferLimit := bufferLimit s; socket := socket s; timers := timers s;
     emitted := emitted s; console := console s |}.
Definition set_packetDuration (d : number) (s : CallMediaQueue) :=
  {| queue := queue s; isSending := isSending s; streamSid := streamSid s;
     packetDuration := d; volumeLevel := volumeLevel s;
     bufferLimit := bufferLimit s; socket := socket s; timers := timers s;
     emitted := emitted s; console := console s |}.
Definition set_volumeLevel (v : number) (s : CallMediaQueue) :=
  {| queue := queue s; isSending := isSending s; streamSid := streamSid s;
     packetDuration := packetDuration s; volumeLevel := v;
     bufferLimit := bufferLimit s; socket := socket s; timers := timers s;
     emitted := emitted s; console := console s |}.
Definition set_bufferLimit (l : number) (s : CallMediaQueue) :=
  {| queue := queue s; isSending := isSending s; streamSid := streamSid s;
     packetDuration := packetDuration s; volumeLevel := volumeLevel s;
     bufferLimit := l; socket := socket s; timers := timers s;
     emitted := emitted s; console := console s |}.
Definition set_socket (w : list WireMessage) (s : CallMediaQueue) :=
  {| queue := queue s; isSending := isSending s; streamSid := streamSid s;
     packetDuration := packetDuration s; volumeLevel := volumeLevel s;
     bufferLimit := bufferLimit s; socket := w; timers := timers s;
     emitted := emitted s; console := console s |}.
Definition set_timers (t : list number) (s : CallMediaQueue) :=
  {| queue := queue s; isSending := isSending s; streamSid := streamSid s;
     packetDuration := packetDuration s; volumeLevel := volumeLevel s;
     bufferLimit := bufferLimit s; socket := socket s; timers := t;
     emitted := emitted s; console := console s |}.
Definition set_emitted (e : list value) (s : CallMediaQueue) :=
  {| queue := queue s; isSending := isSending s; streamSid := streamSid s;
     packetDuration := packetDuration s; volumeLevel := volumeLevel s;
     bufferLimit := bufferLimit s; socket := socket s; timers := timers s;
     emitted := e; console := console s |}.
Definition set_console (c : list LogLine) (s : CallMediaQueue) :=
  {| queue := queue s; isSending := isSending s; streamSid := streamSid s;
     packetDuration := packetDuration s; volumeLevel := volumeLevel s;
     bufferLimit := bufferLimit s; socket := socket s; timers := timers s;
     emitted := emitted s; console := c |}.

(** ** Methods run in a state monad with exceptions

    A method takes the object and returns it together with a value or the
    exception thrown; what was assigned before a [throw] stays assigned. *)

Definition M (A : Type) : Type := CallMediaQueue -> result A * CallMediaQueue.

Definition ret {A} (a : A) : M A := fun s => (inr a, s).
Definition bind {A B} (m : M A) (k : A -> M B) : M B :=
  fun s => match m s with
           | (inr a, s') => k a s'
           | (inl e, s') => (inl e, s')
           end.
Definition throw {A} (e : exn) : M A := fun s => (inl e, s).
Definition try_catch {A} (body : M A) (handler : exn -> M A) : M A :=
  fun s => match body s with
           | (inl e, s') => handler e s'
           | r => r
           end.
Definition gets {A} (f : CallMediaQueue -> A) : M A := fun s => (inr (f s), s).
Definition modify (f : CallMediaQueue -> CallMediaQueue) : M unit :=
  fun s => (inr tt, f s).
Definition lift {A} (r : result A) : M A := fun s => (r, s).

#[global] Instance M_ret : MRet M := @ret.
#[global] Instance M_bind : MBind M := fun A B k m => bind m k.

Definition console_warn (text : string) : M unit :=
  modify (fun s => set_console (console s ++ [console_warn_line text]) s).
Definition console_error (text : string) (error : exn) : M unit :=
  modify (fun s => set_console (console s ++ [console_error_line text error]) s).

(** ** The socket

    [this.socket] is a [WebSocket] of the [ws] library.  Its [send] either
    takes the message or throws, and which of the two is not decided by
    [CallMediaQueue]: the model takes it as a parameter, the exception that
    [send] throws, if any, given the messages handed to it before and the
    message handed now.  Every call makes that list longer, the calls that
    threw included, so every sequence of outcomes is such a function. *)

Class WebSocket := {
  send_throws : list WireMessage -> WireMessage -> option exn
}.

(** ** The methods of [CallMediaQueue] *)

Section Methods.
Context `{codec : Base64} `{ws : WebSocket}.

(** [this.socket.send(JSON.stringify(message))]. *)
Definition socket_send (message : WireMessage) : M unit :=
  fun s =>
    let s' := set_socket (socket s ++ [message]) s in
    match send_throws (socket s) message with
    | Some error => (inl error, s')
    | None => (inr tt, s')
    end.

(** [setTimeout(() => { this.sendNext() }, delay)]. *)
Definition setTimeout_sendNext (delay : number) : M unit :=
  modify (fun s => set_timers (timers s ++ [delay]) s).

Definition processNext : M unit :=
  sending ← gets isSending;
  q ← gets queue;
  if negb sending && (0 <? length q)%nat then
    modify (set_isSending true);;
    d ← gets packetDuration;
    setTimeout_sendNext d
  else mret tt.

Definition sendToTwilio (socketMessage : SocketMessage) : M unit :=
  sid ← gets streamSid;
  socket_send {| w_event := event socketMessage;
                 w_streamSid := sid;
                 w_media := media socketMessage;
                 w_mark := mark socketMessage |}.

(** [socketMessage?.media?.payload] as a condition: the field is there and
    its payload is not the empty string. *)
Definition truthy_payload (socketMessage : SocketMessage) : option string :=
  match media socketMessage with
  | Some m => if String.eqb (payload m) "" then None else Some (payload m)
  | None => None
  end.

Definition sendNext : M unit :=
  q ← gets queue;
  match q with
  | [] =>
      (* End of packets *)
      modify (set_isSending false);;
      modify (set_packetDuration (num_of_Z 0))
  | socketMessage :: rest =>
      try_catch
        (modify (set_queue rest);;
         match truthy_payload socketMessage with
         | Some p =>
             let payloadBuffer := base64_decode p in
             let numberOfSamples :=
               js_div (num_of_nat (length payloadBuffer))
                      (js_mul channels bytesPerSample) in
             modify (set_packetDuration
                       (js_mul (js_div numberOfSamples sampleRate) (num_of_Z 1000)))
         | None => mret tt
         end;;
         sendToTwilio socketMessage;;
         modify (set_isSending false);;
         processNext)
        (fun error => console_error "Error sending audio packet" error)
  end.

Definition clearQueue : M unit := modify (set_queue []).

(** The body of the [for] loop of [adjustVolume], from index [i] on.  The
    loop stops on its condition [i < audioData.length]; [fuel] bounds the
    number of rounds. *)
Fixpoint adjustVolume_loop (fuel : nat) (volume : number) (audioData : Buffer.t)
    (i : nat) (newAudioData : Buffer.t) : result Buffer.t :=
  if (i <? length audioData)%nat then
    match fuel with
    | O => inl OutOfFuel
    | S fuel' =>
        if (i + 1 <? length audioData)%nat then
          match Buffer.readInt16LE audioData i with
          | inl e => inl e
          | inr sample =>
              let newSample := Math_floor (js_mul (num_of_Z sample) volume) in
              (* Clipping the audio signal to prevent distortion *)
              let newSample :=
                Math_min (Math_max newSample (num_of_Z (-32768))) (num_of_Z 32767) in
              match Buffer.writeInt16LE newAudioData newSample i with
              | inl e => inl e
              | inr newAudioData' =>
                  adjustVolume_loop fuel' volume audioData (i + 2)%nat newAudioData'
              end
          end
        else adjustVolume_loop fuel' volume audioData (i + 2)%nat newAudioData
    end
  else inr newAudioData.

(** What [adjustVolume] computes for a given volume level. *)
Definition adjustVolume_at (volume : number) (audioData : Buffer.t) : result Buffer.t :=
  if js_seq volume (num_of_Z 1) then inr audioData
  else
    adjustVolume_loop (length audioData) volume audioData 0%nat
      (Buffer.alloc (length audioData)).

Definition adjustVolume (audioData : Buffer.t) : M Buffer.t :=
  volume ← gets volumeLevel;
  if js_seq volume (num_of_Z 1) then mret audioData
  else
    try_catch
      (lift (adjustVolume_loop (length audioData) volume audioData 0%nat
               (Buffer.alloc (length audioData))))
      (fun error =>
         console_error "Error during audio processing" error;;
         throw error).

Definition enqueue (mediaData : SocketMessage) : M unit :=
  q ← gets queue;
  limit ← gets bufferLimit;
  if js_ge (num_of_nat (length q)) limit then
    (* Buffer limit reached: the packet is dropped *)
    console_warn "Buffer limit reached. Incoming packet dropped."
  else
    volume ← gets volumeLevel;
    mediaData' ←
      match media mediaData with
      | Some m =>
          if js_seq volume (num_of_Z 1) then
            let payloadBuffer := base64_decode (payload m) in
            adjustedBuffer ← adjustVolume payloadBuffer;
            mret {| event := event mediaData;
                    media := Some {| payload := base64_encode adjustedBuffer |};
                    mark := mark mediaData |}
          else mret mediaData
      | None => mret mediaData
      end;
    modify (fun s => set_queue (queue s ++ [mediaData']) s);;
    processNext.

Definition media_ (payload : string) : M unit :=
  enqueue {| event := ev_media; media := Some {| payload := payload |}; mark := None |}.

Definition mark_ (name : string) : M unit :=
  enqueue {| event := ev_mark; media := None; mark := Some {| name := name |} |}.

Definition clear : M unit :=
  sendToTwilio {| event := ev_clear; media := None; mark := None |};;
  clearQueue.

Definition setVolume (volume : value) : M unit :=
  match typeof_number volume with
  | None =>
      throw (Error "Invalid volume level. It should be a number between 0 and 1.")
  | Some v =>
      if js_lt v (num_of_Z 0) || js_gt v (num_of_Z 1) then
        throw (Error "Invalid volume level. It should be a number between 0 and 1.")
      else
        modify (set_volumeLevel (Math_max (num_of_Z 0) (Math_min (num_of_Z 1) v)))
  end.

Definition setBufferLimit (limit : value) : M unit :=
  match typeof_number limit with
  | None => throw (Error "Invalid buffer limit. It should be a positive number.")
  | Some l =>
      if js_lt l (num_of_Z 0) then
        throw (Error "Invalid buffer limit. It should be a positive number.")
      else modify (set_bufferLimit l)
  end.

(** [data.k] for the keys the message handler reads ([event], [mark],
    [name]): a [TypeError] on [undefined] and [null], the field of an object
    if it has one, [undefined] otherwise (no string, number, boolean or array
    has a property of these names). *)
Definition get_field (k : string) (fields : list (string * value)) : value :=
  match find (fun kv => String.eqb (fst kv) k) fields with
  | Some kv => snd kv
  | None => VUndefined
  end.

Definition get_prop (v : value) (k : string) : M value :=
  match v with
  | VUndefined | VNull => throw TypeError
  | VObject fields => mret (get_field k fields)
  | _ => mret VUndefined
  end.

Definition emit_mark (arg : value) : M unit :=
  modify (fun s => set_emitted (emitted s ++ [arg]) s).

(** The ['message'] handler registered by the constructor.  Its argument is
    the outcome of [JSON.parse(message.toString())]: the parsed value, or the
    exception of the parser. *)
Definition on_message (parsed : result value) : M unit :=
  try_catch
    (data ← lift parsed;
     ev ← get_prop data "event";
     match ev with
     | VString tag =>
         if String.eqb tag "mark" then
           mk ← get_prop data "mark";
           nm ← get_prop mk "name";
           emit_mark nm
         else mret tt
     | _ => mret tt
     end)
    (fun error => console_error "Error parsing message data" error).

(** The ['error'] handler of the socket only logs. *)
Definition on_error (error : exn) : M unit :=
  console_error "WebSocket Error" error.

(** A pending timer fires: it is removed and its callback runs. *)
Definition timer_fires : M unit :=
  ts ← gets timers;
  match ts with
  | [] => mret tt
  | _ :: rest => modify (set_timers rest);; sendNext
  end.

(** ** The object as a state machine: what can happen to it *)

Inductive Action :=
| call_media (payload : string)
| call_mark (name : string)
| call_clear
| call_setVolume (volume : value)
| call_setBufferLimit (limit : value)
| timer
| socket_message (parsed : result value)
| socket_error (error : exn).

Definition run (a : Action) : M unit :=
  match a with
  | call_media p => media_ p
  | call_mark n => mark_ n
  | call_clear => clear
  | call_setVolume v => setVolume v
  | call_setBufferLimit l => setBufferLimit l
  | timer => timer_fires
  | socket_message m => on_message m
  | socket_error e => on_error e
  end.

(** The object after an action, whether it threw or not. *)
Definition step (a : Action) (s : CallMediaQueue) : CallMediaQueue := snd (run a s).

Definition steps (l : list Action) (s : CallMediaQueue) : CallMediaQueue :=
  fold_left (fun s a => step a s) l s.

End Methods.

(** ** A concrete base64 (RFC 4648), to run the methods on concrete payloads

    The decoder takes both alphabets, skips characters outside them and
    stops at the first [=], as Node's does. *)

Module NodeBase64.

Definition alphabet : string :=
  "ABCDEFGHIJKLMNOPQRSTUVWXYZabcdefghijklmnopqrstuvwxyz0123456789+/".

Definition char_of_sextet (n : Z) : ascii :=
  default "A"%char (String.get (Z.to_nat n) alphabet).

Definition sextet_of_char (c : ascii) : option Z :=
  let n := Z.of_N (N_of_ascii c) in
  if (65 <=? n) && (n <=? 90) then Some (n - 65)
  else if (97 <=? n) && (n <=? 122) then Some (n - 71)
  else if (48 <=? n) && (n <=? 57) then Some (n + 4)
  else if (n =? 43) || (n =? 45) then Some 62
  else if (n =? 47) || (n =? 95) then Some 63
  else None.

Fixpoint encode (b : Buffer.t) : string :=
  match b with
  | [] => ""
  | [x] =>
      let n := Buffer.byte_to_Z x in
      String (char_of_sextet (n / 4))
        (String (char_of_sextet (n mod 4 * 16)) "==")
  | [x; y] =>
      let n := Buffer.byte_to_Z x * 256 + Buffer.byte_to_Z y in
      String (char_of_sextet (n / 1024))
        (String (char_of_sextet (n / 16 mod 64))
           (String (char_of_sextet (n mod 16 * 4)) "="))
  | x :: y :: z :: rest =>
      let n := Buffer.byte_to_Z x * 65536 + Buffer.byte_to_Z y * 256
               + Buffer.byte_to_Z z in
      String (char_of_sextet (n / 262144))
        (String (char_of_sextet (n / 4096 mod 64))
           (String (char_of_sextet (n / 64 mod 64))
              (String (char_of_sextet (n mod 64)) (encode rest))))
  end.

Fixpoint sextets (s : string) : list Z :=
  match s with
  | EmptyString => []
  | String c rest =>
      if Ascii.eqb c "="%char then []
      else match sextet_of_char c with
           | Some v => v :: sextets rest
           | None => sextets rest
           end
  end.

Fixpoint bytes_of_sextets (l : list Z) : Buffer.t :=
  match l with
  | a :: b :: c :: d :: rest =>
      let n := a * 262144 + b * 4096 + c * 64 + d in
      Buffer.byte_of_Z (n / 65536) :: Buffer.byte_of_Z (n / 256)
        :: Buffer.byte_of_Z n :: bytes_of_sextets rest
  | [a; b; c] =>
      let n := a * 4096 + b * 64 + c in
      [Buffer.byte_of_Z (n / 1024); Buffer.byte_of_Z (n / 4)]
  | [a; b] => [Buffer.byte_of_Z ((a * 64 + b) / 16)]
  | _ => []
  end.

Definition decode (s : string) : Buffer.t := bytes_of_sextets (sextets s).

End NodeBase64.

#[global] Instance node_base64 : Base64 :=
  {| base64_decode := NodeBase64.decode; base64_encode := NodeBase64.encode |}.

(** ** Two sockets, to run the methods on concrete inputs

    One whose [send] takes every message, which is the socket of every run
    below that names no other, and one whose [send] always throws, as that
    of a socket that is still connecting does. *)

#[global] Instance open_socket : WebSocket := {| send_throws _ _ := None |}.

Definition not_open : exn :=
  Error "WebSocket is not open: readyState 0 (CONNECTING)".

Definition connecting_socket : WebSocket := {| send_throws _ _ := Some not_open |}.

(** 16-bit samples as a little-endian buffer, to write examples. *)
Definition pcm16 (samples : list Z) : Buffer.t :=
  flat_map (fun z => [Buffer.byte_of_Z z; Buffer.byte_of_Z (z / 256)]) samples.

(** A payload of [n] zero bytes. *)
Definition silence (n : nat) : string := NodeBase64.encode (replicate n Byte.x00).

(** ** The earlier version of the class

    The source file holds a second, earlier [CallMediaQueue] after the first:
    no buffer limit, a [setVolume] that clamps instead of throwing, and no
    [try]/[catch] in [sendNext], [adjustVolume] and the message handler.  It
    is modelled on the same record, whose [bufferLimit] it neither reads nor
    writes; [processNext], [sendToTwilio] and [clearQueue] are word for word
    those of the later version. *)

Module Previous.

Section Methods.
Context `{codec : Base64} `{ws : WebSocket}.

Definition sendNext : M unit :=
  q ← gets queue;
  match q with
  | [] =>
      (* End of packets *)
      modify (set_isSending false);;
      modify (set_packetDuration (num_of_Z 0))
  | socketMessage :: rest =>
      modify (set_queue rest);;
      match truthy_payload socketMessage with
      | Some p =>
          let payloadBuffer := base64_decode p in
          let numberOfSamples :=
            js_div (num_of_nat (length payloadBuffer))
                   (js_mul channels bytesPerSample) in
          modify (set_packetDuration
                    (js_mul (js_div numberOfSamples sampleRate) (num_of_Z 1000)))
      | None => mret tt
      end;;
      sendToTwilio socketMessage;;
      modify (set_isSending false);;
      processNext
  end.

Definition adjustVolume (audioData : Buffer.t) : M Buffer.t :=
  volume ← gets volumeLevel;
  if js_seq volume (num_of_Z 1) then mret audioData
  else
    lift (adjustVolume_loop (length audioData) volume audioData 0%nat
            (Buffer.alloc (length audioData))).

Definition enqueue (mediaData : SocketMessage) : M unit :=
  volume ← gets volumeLevel;
  mediaData' ←
    match media mediaData with
    | Some m =>
        if js_seq volume (num_of_Z 1) then
          let payloadBuffer := base64_decode (payload m) in
          adjustedBuffer ← adjustVolume payloadBuffer;
          mret {| event := event mediaData;
                  media := Some {| payload := base64_encode adjustedBuffer |};
                  mark := mark mediaData |}
        else mret mediaData
    | None => mret mediaData
    end;
  modify (fun s => set_queue (queue s ++ [mediaData']) s);;
  processNext.

Definition media_ (payload : string) : M unit :=
  enqueue {| event := ev_media; media := Some {| payload := payload |}; mark := None |}.

Definition mark_ (name : string) : M unit :=
  enqueue {| event := ev_mark; media := None; mark := Some {| name := name |} |}.

Definition clear : M unit :=
  sendToTwilio {| event := ev_clear; media := None; mark := None |};;
  clearQueue.

(** [setVolume(volume: number)]: no check, the value is clamped. *)
Definition setVolume (volume : number) : M unit :=
  modify (set_volumeLevel (Math_max (num_of_Z 0) (Math_min (num_of_Z 1) volume))).

(** The ['message'] handler, on the outcome of [JSON.parse]: what the parser
    or a property access throws is not caught. *)
Definition on_message (parsed : result value) : M unit :=
  data ← lift parsed;
  ev ← get_prop data "event";
  match ev with
  | VString tag =>
      if String.eqb tag "mark" then
        mk ← get_prop data "mark";
        nm ← get_prop mk "name";
        emit_mark nm
      else mret tt
  | _ => mret tt
  end.

End Methods.

End Previous.

(** ** Definitions used to state and prove the properties *)

(** The closed form of an integer below [2^53] as a number. *)
Definition canon (s : bool) (p : positive) : number :=
  let d := Zpos (digits2_pos p) in
  match 53 - d with
  | Zpos k => S754_finite s (Pos.iter xO p k) (d - 53)
  | _ => S754_finite s p 0
  end.

(** [x] is the integer [k]. *)
Definition is_int (x : number) (k : Z) : Prop :=
  match dyadic x with
  | Some (m, e) => m * 2 ^ (e - Z.min e 0) = k * 2 ^ (- Z.min e 0)
  | None => False
  end.

(** A number that rounding can return: no NaN, at most 53 bits. *)
Definition rounded (x : number) : Prop :=
  match x with
  | S754_nan => False
  | S754_finite _ m _ => Zpos m < 2 ^ 53
  | _ => True
  end.

Definition clamp16 (z : Z) : Z := Z.min (Z.max z (-32768)) 32767.

(** [clamp(floor(x), -32768, 32767)] on the extended reals; nothing for NaN. *)
Definition clamp_floor (x : number) : option Z :=
  match x with
  | S754_nan => None
  | S754_infinity false => Some 32767
  | S754_infinity true => Some (-32768)
  | _ => Some (clamp16 (Zfloor x))
  end.

(** The two lines of [adjustVolume] after the multiplication. *)
Definition clip (product : number) : number :=
  Math_min (Math_max (Math_floor product) (num_of_Z (-32768))) (num_of_Z 32767).

(** [f] holds of the [n] integers from [z] on. *)
Fixpoint all_from (n : nat) (z : Z) (f : Z -> bool) : bool :=
  match n with
  | O => true
  | S n' => f z && all_from n' (z + 1) f
  end.

(** The sample that two bytes hold. *)
Definition int16 (first last : Byte.byte) : Z :=
  Buffer.sign_extend16 (Buffer.byte_to_Z first + Buffer.byte_to_Z last * 2 ^ 8).

(** The number that [adjustVolume] writes for the sample of two bytes. *)
Definition scaled (volume : number) (first last : Byte.byte) : number :=
  clip (js_mul (num_of_Z (int16 first last)) volume).

(** [adjustVolume] without indices: sample by sample, a last odd byte gives
    the zero byte of the fresh buffer. *)
Fixpoint scale_pairs (volume : number) (audioData : Buffer.t) : Buffer.t :=
  match audioData with
  | first :: last :: rest =>
      Buffer.byte_of_Z (ToUint8 (scaled volume first last))
        :: Buffer.byte_of_Z (js_ushr (scaled volume first last) 8)
        :: scale_pairs volume rest
  | [_] => [Byte.x00]
  | [] => []
  end.

(** A zero or a finite number. *)
Definition is_real (x : number) : Prop :=
  match x with
  | S754_zero _ | S754_finite _ _ _ => True
  | _ => False
  end.

Definition clear_wire (sid : string) : WireMessage :=
  {| w_event := ev_clear; w_streamSid := sid; w_media := None; w_mark := None |}.

(** What [sendToTwilio] hands to the socket for a message. *)
Definition wire_of (sid : string) (m : SocketMessage) : WireMessage :=
  {| w_event := event m; w_streamSid := sid; w_media := media m; w_mark := mark m |}.

(** The duration of the spec, in JavaScript arithmetic:
    [(payloadByteLength / (channels * bytesPerSample)) / sampleRate * 1000]. *)
Definition durationMs (payloadByteLength : nat) : number :=
  js_mul (js_div (js_div (num_of_nat payloadByteLength) (js_mul channels bytesPerSample))
                 sampleRate)
         (num_of_Z 1000).

Definition invalid_volume : exn :=
  Error "Invalid volume level. It should be a number between 0 and 1.".

(** The inbound message [{"event":"mark","mark":{"name":N}}], parsed. *)
Definition mark_echo (N : string) : value :=
  VObject [("event"%string, VString "mark");
           ("mark"%string, VObject [("name"%string, VString N)])].

Definition media_message (p : string) : SocketMessage :=
  {| event := ev_media; media := Some {| payload := p |}; mark := None |}.

(** Actions that leave the buffer limit alone. *)
Definition keeps_limit (a : Action) : Prop :=
  match a with call_setBufferLimit _ => False | _ => True end.

Definition one_half : number := js_div (num_of_Z 1) (num_of_Z 2).

(** The object after a packet of 640 bytes was sent (on a socket that takes
    it), a media message with the empty payload waiting. *)
Definition two_payloads : CallMediaQueue :=
  steps [call_media (silence 640); call_media ""; timer] (constructor "S").

Definition mark_message (n : string) : SocketMessage :=
  {| event := ev_mark; media := None; mark := Some {| name := n |} |}.

Definition five_offers : list SocketMessage :=
  [media_message "AAAA"; media_message "AQID"; mark_message "m";
   media_message "BAUG"; media_message "BwgJ"].

(** One mark queued on a fresh object. *)
Definition one_mark_queued : CallMediaQueue := snd (mark_ "a" (constructor "S")).

(** The pacer is either sending, with exactly one timer pending, or idle,
    with no timer and nothing queued. *)
Definition pacer_ok (s : CallMediaQueue) : Prop :=
  (isSending s = true /\ exists d, timers s = [d])
  \/ (isSending s = false /\ timers s = [] /\ queue s = []).

(** The pacer is stalled: it counts as sending, and no timer is pending
    that would send. *)
Definition stalled (s : CallMediaQueue) : Prop :=
  isSending s = true /\ timers s = [].

Definition invalid_limit : exn :=
  Error "Invalid buffer limit. It should be a positive number.".

(** The duration that sending [m] leaves: the one of its payload, or the
    one before for a message without payload. *)
Definition duration_after `{Base64} (m : SocketMessage) (before : number) : number :=
  match truthy_payload m with
  | Some p => durationMs (length (base64_decode p))
  | None => before
  end.

Definition dropped_warning : LogLine :=
  console_warn_line "Buffer limit reached. Incoming packet dropped.".

(** The volume level is NaN or lies between 0 and 1, and the buffer limit is
    not below 0. *)
Definition settings_ok (s : CallMediaQueue) : Prop :=
  (volumeLevel s = js_NaN
   \/ (js_le (num_of_Z 0) (volumeLevel s) = true
       /\ js_le (volumeLevel s) (num_of_Z 1) = true))
  /\ js_lt (bufferLimit s) (num_of_Z 0) = false.

(** A number that is not negative and not NaN: a zero, a positive finite
    number or [+Infinity]. *)
Definition not_negative (x : number) : Prop :=
  match x with
  | S754_zero _ | S754_finite false _ _ | S754_infinity false => True
  | _ => False
  end.

Section Derived.
Context `{codec : Base64} `{ws : WebSocket}.

(** The message that [enqueue] pushes for [mediaData] at a volume level. *)
Definition stored_form (volume : number) (mediaData : SocketMessage) : SocketMessage :=
  match media mediaData with
  | Some m =>
      if js_seq volume (num_of_Z 1) then
        {| event := event mediaData;
           media := Some {| payload := base64_encode (base64_decode (payload m)) |};
           mark := mark mediaData |}
      else mediaData
  | None => mediaData
  end.

(** The object after the packet duration was updated for the message about
    to be sent. *)
Definition with_duration (m : SocketMessage) (s : CallMediaQueue) : CallMediaQueue :=
  match truthy_payload m with
  | Some p => set_packetDuration (durationMs (length (base64_decode p))) s
  | None => s
  end.

(** The object after [sendNext] took [m] from the front of the queue and
    handed it to the socket. *)
Definition handed (m : SocketMessage) (rest : list SocketMessage)
    (s : CallMediaQueue) : CallMediaQueue :=
  set_socket (socket s ++ [wire_of (streamSid s) m])
    (with_duration m (set_queue rest s)).

Definition send_failed_line (error : exn) : LogLine :=
  console_error_line "Error sending audio packet" error.

(** Offering a list of messages, one [enqueue] after the other. *)
Definition offer_all (items : list SocketMessage) (s : CallMediaQueue) : CallMediaQueue :=
  fold_left (fun s m => snd (enqueue m s)) items s.

(** Everything that went or will go to the socket: what was handed to
    [send], whether it took it or threw, then the queue as it would be
    handed over. *)
Definition outbound (s : CallMediaQueue) : list WireMessage :=
  socket s ++ (wire_of (streamSid s) <$> queue s).

(** A socket whose [send] never throws. *)
Definition reliable : Prop := forall sent message, send_throws sent message = None.

(** The socket takes the messages [pending] one after the other, [sent]
    being what was handed to it before. *)
Fixpoint accepts (sent pending : list WireMessage) : bool :=
  match pending with
  | [] => true
  | message :: later =>
      match send_throws sent message with
      | None => accepts (sent ++ [message]) later
      | Some _ => false
      end
  end.

(** The packet duration and the delays of the pending timers are not
    negative. *)
Definition delays_ok (s : CallMediaQueue) : Prop :=
  not_negative (packetDuration s) /\ Forall not_negative (timers s).

End Derived.

(** * Sanity checks of the model on concrete inputs *)

Example num_of_Z_1 : num_of_Z 1 = S754_finite false 4503599627370496 (-52).
Proof. reflexivity. Qed.
Example half_of_20000 : js_mul (num_of_Z 20000) (js_div (num_of_Z 1) (num_of_Z 2)) = num_of_Z 10000.
Proof. vm_compute. reflexivity. Qed.
Example floor_5_times_0_6 : Math_floor (js_mul (num_of_Z 5) (js_div (num_of_Z 6) (num_of_Z 10))) = num_of_Z 3.
Proof. vm_compute. reflexivity. Qed.
Example floor_negative : Math_floor (js_mul (num_of_Z (-5)) (js_div (num_of_Z 1) (num_of_Z 2))) = num_of_Z (-3).
Proof. vm_compute. reflexivity. Qed.
Example base64_encode_20000 : NodeBase64.encode (pcm16 [20000]) = "IE4="%string.
Proof. reflexivity. Qed.
Example base64_decode_20000 : NodeBase64.decode "IE4=" = pcm16 [20000].
Proof. reflexivity. Qed.
Example base64_encode_Man : NodeBase64.encode [Byte.x4d; Byte.x61; Byte.x6e] = "TWFu"%string.
Proof. reflexivity. Qed.
Example adjustVolume_at_half : adjustVolume_at (js_div (num_of_Z 1) (num_of_Z 2)) (pcm16 [20000; -3; 7] ++ [Byte.xff])
   = inr (pcm16 [10000; -2; 3] ++ [Byte.x00]).
Proof. vm_compute. reflexivity. Qed.
Example three_packets_all_sent :
  let s := steps [call_media (silence 640); call_media (silence 320); call_media (silence 640);
                  timer; timer; timer; timer] (constructor "S") in
  (length (socket s), timers s, packetDuration s, isSending s) = (3%nat, [], num_of_Z 20, false).
Proof. vm_compute. reflexivity. Qed.
Example three_packets_second_sent :
  let s := steps [call_media (silence 640); call_media (silence 320); call_media (silence 640);
                  timer; timer] (constructor "S") in
  (length (socket s), timers s, packetDuration s, isSending s) = (2%nat, [num_of_Z 10], num_of_Z 10, true).
Proof. vm_compute. reflexivity. Qed.
Example setVolume_rejects_infinity :
  setVolume (VNumber (S754_infinity false)) (constructor "S")
  = (inl invalid_volume, constructor "S").
Proof. reflexivity. Qed.
Example setVolume_rejects_minus_infinity :
  setVolume (VNumber (S754_infinity true)) (constructor "S")
  = (inl invalid_volume, constructor "S").
Proof. reflexivity. Qed.
Example setVolume_rejects_string :
  setVolume (VString "0.5") (constructor "S") = (inl invalid_volume, constructor "S").
Proof. reflexivity. Qed.
Example setVolume_rejects_one_and_a_half :
  setVolume (VNumber (js_div (num_of_Z 3) (num_of_Z 2))) (constructor "S")
  = (inl invalid_volume, constructor "S").
Proof. vm_compute. reflexivity. Qed.
Example setVolume_minus_zero_stores_zero :
  volumeLevel (step (call_setVolume (VNumber (S754_zero true))) (constructor "S"))
  = S754_zero false.
Proof. reflexivity. Qed.
Example fractional_limit_admits_three :
  let s := steps [call_setBufferLimit (VNumber (js_div (num_of_Z 5) (num_of_Z 2)));
                  call_mark "a"; call_mark "b"; call_mark "c"; call_mark "d"]
                 (constructor "S") in
  length (queue s) = 3%nat.
Proof. vm_compute. reflexivity. Qed.
Example send_throws_stalls_pacer :
  let s := steps (ws := connecting_socket)
                 [call_mark "a"; call_mark "b"; timer; timer; call_mark "c"; timer]
                 (constructor "S") in
  (length (socket s), length (queue s), isSending s, timers s,
   console s)
  = (1%nat, 2%nat, true, [], [console_error_line "Error sending audio packet" not_open]).
Proof. vm_compute. reflexivity. Qed.
Example clear_throws_with_queue_kept :
  let s := steps [call_mark "a"; call_mark "b"] (constructor "S") in
  (fst (run (ws := connecting_socket) call_clear s),
   length (queue (step (ws := connecting_socket) call_clear s)))
  = (inl not_open, 2%nat).
Proof. vm_compute. reflexivity. Qed.

(** * Numbers and buffers *)

(** ** Bits of a mantissa, and integers as numbers *)

(** A positive of [d] bits lies between [2^(d-1)] and [2^d]. *)
Lemma digits2_pos_bounds p :
  2 ^ (Zpos (digits2_pos p) - 1) <= Zpos p < 2 ^ Zpos (digits2_pos p).
Proof.
  induction p as [p IH|p IH|]; simpl digits2_pos; [| |simpl; lia];
    rewrite Pos2Z.inj_succ, Z.pow_succ_r by lia;
    replace (Z.succ (Zpos (digits2_pos p)) - 1)
      with (Z.succ (Zpos (digits2_pos p) - 1)) by lia;
    rewrite Z.pow_succ_r by lia; lia.
Qed.

Lemma digits2_pos_le p k : 0 <= k -> Zpos p < 2 ^ k -> Zpos (digits2_pos p) <= k.
Proof.
  intros Hk Hp. destruct (Z_le_gt_dec (Zpos (digits2_pos p)) k) as [|Hgt]; [assumption|].
  pose proof (digits2_pos_bounds p) as [Hlo _].
  assert (2 ^ k <= 2 ^ (Zpos (digits2_pos p) - 1)) by (apply Z.pow_le_mono_r; lia).
  lia.
Qed.

Lemma iter_xO_mul p k : Zpos (Pos.iter xO p k) = Zpos p * 2 ^ Zpos k.
Proof.
  revert p. induction k using Pos.peano_ind; intros p.
  - simpl. lia.
  - rewrite Pos.iter_succ. rewrite Pos2Z.inj_succ, Z.pow_succ_r by lia.
    change (Zpos (Pos.iter xO p k)~0) with (2 * Zpos (Pos.iter xO p k)).
    rewrite IHk. lia.
Qed.

Lemma digits2_pos_iter_xO p k :
  Zpos (digits2_pos (Pos.iter xO p k)) = Zpos (digits2_pos p) + Zpos k.
Proof.
  induction k using Pos.peano_ind.
  - simpl. lia.
  - rewrite Pos.iter_succ. simpl digits2_pos. lia.
Qed.

(** A mantissa of 53 bits at an exponent of the format is not rounded. *)
Lemma round_aux_aligned s m e :
  Zpos (digits2_pos m) = 53 -> -1074 <= e <= 971 ->
  binary_round_aux prec emax s (Zpos m) e loc_Exact = S754_finite s m e.
Proof.
  intros Hd He.
  assert (E : fexp prec emax (Zpos (digits2_pos m) + e) - e = 0).
  { rewrite Hd. unfold fexp, emin, prec, emax. lia. }
  unfold binary_round_aux, shr_fexp. simpl Zdigits2. rewrite E.
  simpl shr. cbv beta iota. simpl round_nearest_even. simpl Zdigits2. rewrite E.
  simpl shr. cbv beta iota. simpl shr_m.
  replace (e <=? emax - prec) with true; [reflexivity|].
  symmetry. apply Z.leb_le. unfold emax, prec. lia.
Qed.

Lemma binary_round_exact s p :
  Zpos p < 2 ^ 53 -> binary_round prec emax s p 0 = canon s p.
Proof.
  intros Hp.
  pose proof (digits2_pos_le p 53 ltac:(lia) Hp) as Hd.
  pose proof (Pos2Z.is_pos (digits2_pos p)) as Hd0.
  unfold binary_round, canon, shl_align.
  assert (Hfexp : fexp prec emax (Zpos (digits2_pos p) + 0) = Zpos (digits2_pos p) - 53).
  { unfold fexp, emin, prec, emax. lia. }
  rewrite Hfexp.
  replace (Zpos (digits2_pos p) - 53 - 0) with (- (53 - Zpos (digits2_pos p))) by lia.
  destruct (53 - Zpos (digits2_pos p)) as [|k|k] eqn:Hk; simpl Z.opp; cbv iota.
  - apply round_aux_aligned; lia.
  - apply round_aux_aligned; [|lia].
    rewrite digits2_pos_iter_xO. lia.
  - lia.
Qed.

(** Below [2^53] an integer is converted exactly, to its canonical form. *)
Lemma num_of_Z_exact z :
  Z.abs z < 2 ^ 53 ->
  num_of_Z z = match z with
               | 0 => S754_zero false
               | Zpos p => canon false p
               | Zneg p => canon true p
               end.
Proof.
  intros Hz. destruct z as [|p|p]; unfold num_of_Z, binary_normalize.
  - reflexivity.
  - apply binary_round_exact. lia.
  - apply binary_round_exact. lia.
Qed.

(** ** Rounding: what [binary_round_aux] can return *)

(** One step of the shift halves the mantissa. *)
Lemma shr_1_m r : 0 <= shr_m r -> shr_m (shr_1 r) = shr_m r / 2.
Proof.
  destruct r as [m r s]. simpl. intros Hm.
  rewrite <- Z.div2_div.
  destruct m as [|[p|p|]|p]; try reflexivity. lia.
Qed.

Lemma iter_shr_1_m p : forall r,
  0 <= shr_m r -> shr_m (SpecFloat.iter_pos shr_1 p r) = shr_m r / 2 ^ Zpos p.
Proof.
  induction p as [p IH|p IH|]; intros r Hr; simpl SpecFloat.iter_pos.
  - assert (H1 : 0 <= shr_m (shr_1 r)).
    { rewrite shr_1_m by assumption. apply Z.div_pos; lia. }
    assert (H2 : 0 <= shr_m (SpecFloat.iter_pos shr_1 p (shr_1 r))).
    { rewrite IH by assumption. apply Z.div_pos; [assumption|]. apply Z.pow_pos_nonneg; lia. }
    rewrite IH, IH, shr_1_m by assumption.
    rewrite !Z.div_div by (try apply Z.pow_pos_nonneg; lia).
    f_equal. change 2 with (2 ^ 1) at 1. rewrite <- !Z.pow_add_r by lia. f_equal. lia.
  - assert (H2 : 0 <= shr_m (SpecFloat.iter_pos shr_1 p r)).
    { rewrite IH by assumption. apply Z.div_pos; [assumption|]. apply Z.pow_pos_nonneg; lia. }
    rewrite IH, IH by assumption.
    rewrite !Z.div_div by (try apply Z.pow_pos_nonneg; lia).
    f_equal. rewrite <- Z.pow_add_r by lia. f_equal. lia.
  - rewrite shr_1_m by assumption. reflexivity.
Qed.

Lemma Zdigits2_bound m : 0 <= m -> m < 2 ^ Zdigits2 m.
Proof.
  destruct m as [|p|p]; intros Hm; simpl; try lia.
  apply digits2_pos_bounds.
Qed.

Lemma Zdigits2_nonneg m : 0 <= Zdigits2 m.
Proof. destruct m; simpl; lia. Qed.

(** Shifting to the exponent of the format leaves at most 53 bits. *)
Lemma shr_fexp_bound m e l :
  0 <= m ->
  0 <= shr_m (fst (shr_fexp prec emax m e l)) < 2 ^ 53
  /\ shr_m (fst (shr_fexp prec emax m e l)) <= m.
Proof.
  intros Hm. unfold shr_fexp.
  set (n := fexp prec emax (Zdigits2 m + e) - e).
  assert (Hn : Zdigits2 m - 53 <= n).
  { unfold n, fexp, prec. lia. }
  pose proof (Zdigits2_bound m Hm) as Hb.
  pose proof (Zdigits2_nonneg m) as Hd.
  assert (Hr : shr_m (shr_record_of_loc m l) = m).
  { destruct l as [|[]]; reflexivity. }
  unfold shr. destruct n as [|k|k] eqn:Hk; simpl fst.
  - rewrite Hr. split; [split; [lia|]|lia].
    eapply Z.lt_le_trans; [apply Hb|]. apply Z.pow_le_mono_r; lia.
  - rewrite iter_shr_1_m by (rewrite Hr; lia). rewrite Hr.
    assert (0 < 2 ^ Zpos k) by (apply Z.pow_pos_nonneg; lia).
    split; [split|].
    + apply Z.div_pos; lia.
    + apply Z.div_lt_upper_bound; [lia|].
      rewrite <- Z.pow_add_r by lia.
      eapply Z.lt_le_trans; [apply Hb|]. apply Z.pow_le_mono_r; lia.
    + apply Z.div_le_upper_bound; [lia|]. nia.
  - rewrite Hr. split; [split; [lia|]|lia].
    eapply Z.lt_le_trans; [apply Hb|]. apply Z.pow_le_mono_r; lia.
Qed.

(** Rounding adds at most one unit in the last place. *)
Lemma round_nearest_even_bound m l :
  0 <= m -> m <= round_nearest_even m l <= m + 1.
Proof.
  intros Hm. destruct l as [|[]]; simpl; try lia.
  destruct (Z.even m); lia.
Qed.

(** Rounding never gives NaN, and a finite result has at most 53 bits. *)
Lemma binary_round_aux_cases s m e l :
  0 <= m ->
  binary_round_aux prec emax s m e l = S754_zero s
  \/ binary_round_aux prec emax s m e l = S754_infinity s
  \/ exists m' e', binary_round_aux prec emax s m e l = S754_finite s m' e'
                   /\ Zpos m' < 2 ^ 53.
Proof.
  intros Hm. unfold binary_round_aux.
  pose proof (shr_fexp_bound m e l Hm) as [H1 _].
  destruct (shr_fexp prec emax m e l) as [mrs' e'] eqn:E1. simpl fst in H1.
  set (m1 := round_nearest_even (shr_m mrs') (loc_of_shr_record mrs')).
  pose proof (round_nearest_even_bound (shr_m mrs') (loc_of_shr_record mrs') ltac:(lia)) as H2.
  fold m1 in H2.
  assert (Hm1 : 0 <= m1) by lia.
  pose proof (shr_fexp_bound m1 e' loc_Exact Hm1) as [H3 H4].
  assert (H5 : shr_m (fst (shr_fexp prec emax m1 e' loc_Exact)) < 2 ^ 53) by lia.
  destruct (shr_fexp prec emax m1 e' loc_Exact) as [mrs'' e''] eqn:E2. simpl fst in *.
  destruct (shr_m mrs'') as [|p|p] eqn:E3.
  - left. reflexivity.
  - right. destruct (e'' <=? emax - prec).
    + right. exists p, e''. split; [reflexivity|lia].
    + left. reflexivity.
  - lia.
Qed.

(** ** Integers among the numbers: comparison, truncation, floor *)

Lemma cond_Zopp_mul s a b : cond_Zopp s (a * b) = cond_Zopp s a * b.
Proof. destruct s; simpl; lia. Qed.

Lemma cond_Zopp_involutive s a : cond_Zopp s (cond_Zopp s a) = a.
Proof. destruct s; simpl; lia. Qed.

Lemma is_int_canon s p : is_int (canon s p) (cond_Zopp s (Zpos p)).
Proof.
  unfold is_int, canon.
  destruct (53 - Zpos (digits2_pos p)) as [|k|k] eqn:Hk; simpl dyadic.
  - reflexivity.
  - replace (Zpos (digits2_pos p) - 53) with (- Zpos k) by lia.
    rewrite Z.min_l by lia. rewrite Z.sub_diag, Z.opp_involutive.
    rewrite iter_xO_mul, cond_Zopp_mul. simpl (2 ^ 0). lia.
  - reflexivity.
Qed.

Lemma is_int_num_of_Z z : Z.abs z < 2 ^ 53 -> is_int (num_of_Z z) z.
Proof.
  intros Hz. rewrite num_of_Z_exact by assumption.
  destruct z as [|p|p].
  - reflexivity.
  - apply (is_int_canon false p).
  - apply (is_int_canon true p).
Qed.

Lemma is_int_dyadic x k : is_int x k -> exists m e, dyadic x = Some (m, e).
Proof.
  unfold is_int. destruct (dyadic x) as [[m e]|]; [eauto|tauto].
Qed.

Lemma Z_mul_compare_r p a b : 0 < p -> (a * p ?= b * p) = (a ?= b).
Proof.
  intros Hp. destruct (Z.compare_spec a b) as [->|Hlt|Hgt].
  - apply Z.compare_refl.
  - apply Z.compare_lt_iff. nia.
  - apply Z.compare_gt_iff. nia.
Qed.

(** Two integers written as mantissa and exponent compare as integers. *)
Lemma cmp_dyadic_int m1 e1 m2 e2 k1 k2 :
  m1 * 2 ^ (e1 - Z.min e1 0) = k1 * 2 ^ (- Z.min e1 0) ->
  m2 * 2 ^ (e2 - Z.min e2 0) = k2 * 2 ^ (- Z.min e2 0) ->
  cmp_dyadic (m1, e1) (m2, e2) = (k1 ?= k2).
Proof.
  intros H1 H2. unfold cmp_dyadic. simpl fst. simpl snd.
  set (E := Z.min e1 e2). set (E0 := Z.min E 0).
  assert (Hp : 0 < 2 ^ (E - E0)) by (apply Z.pow_pos_nonneg; lia).
  rewrite <- (Z_mul_compare_r _ _ _ Hp).
  assert (A1 : m1 * 2 ^ (e1 - E) * 2 ^ (E - E0) = k1 * 2 ^ (- E0)).
  { rewrite <- Z.mul_assoc, <- Z.pow_add_r by lia.
    replace (e1 - E + (E - E0)) with ((e1 - Z.min e1 0) + (Z.min e1 0 - E0)) by lia.
    rewrite Z.pow_add_r by lia. rewrite Z.mul_assoc, H1.
    rewrite <- Z.mul_assoc, <- Z.pow_add_r by lia. f_equal. f_equal. lia. }
  assert (A2 : m2 * 2 ^ (e2 - E) * 2 ^ (E - E0) = k2 * 2 ^ (- E0)).
  { rewrite <- Z.mul_assoc, <- Z.pow_add_r by lia.
    replace (e2 - E + (E - E0)) with ((e2 - Z.min e2 0) + (Z.min e2 0 - E0)) by lia.
    rewrite Z.pow_add_r by lia. rewrite Z.mul_assoc, H2.
    rewrite <- Z.mul_assoc, <- Z.pow_add_r by lia. f_equal. f_equal. lia. }
  rewrite A1, A2.
  apply Z_mul_compare_r. apply Z.pow_pos_nonneg; lia.
Qed.

(** Comparing two integers as numbers compares them. *)
Lemma js_compare_int x y k c :
  is_int x k -> is_int y c -> js_compare x y = Some (k ?= c).
Proof.
  unfold is_int. intros Hx Hy.
  destruct (dyadic x) as [[m1 e1]|] eqn:Dx; [|tauto].
  destruct (dyadic y) as [[m2 e2]|] eqn:Dy; [|tauto].
  assert (js_compare x y = Some (cmp_dyadic (m1, e1) (m2, e2))) as ->.
  { destruct x, y; simpl in Dx, Dy; try discriminate; unfold js_compare;
      simpl dyadic; congruence. }
  f_equal. apply cmp_dyadic_int; assumption.
Qed.

(** Truncating a number that is an integer gives that integer. *)
Lemma truncate_int x k : is_int x k -> truncate x = k.
Proof.
  unfold is_int. destruct x as [s| |  |s m e]; simpl; try tauto.
  - lia.
  - destruct (Z.leb_spec 0 e) as [He|He].
    + rewrite Z.min_r by lia. rewrite Z.sub_0_r. simpl (2 ^ (- 0)).
      rewrite cond_Zopp_mul. lia.
    + rewrite Z.min_l by lia. rewrite Z.sub_diag. simpl (2 ^ 0). intros Hk.
      assert (Hp : 0 < 2 ^ (- e)) by (apply Z.pow_pos_nonneg; lia).
      assert (Zpos m = cond_Zopp s k * 2 ^ (- e)) as ->.
      { rewrite <- cond_Zopp_mul. rewrite <- Hk. rewrite Z.mul_1_r.
        symmetry. apply cond_Zopp_involutive. }
      rewrite Z.div_mul by lia. apply cond_Zopp_involutive.
Qed.

Lemma Zfloor_int x k : is_int x k -> Zfloor x = k.
Proof.
  unfold is_int. destruct x as [s| |  |s m e]; simpl; try tauto.
  - lia.
  - destruct (Z.leb_spec 0 e) as [He|He].
    + rewrite Z.min_r by lia. rewrite Z.sub_0_r. simpl (2 ^ (- 0)). lia.
    + rewrite Z.min_l by lia. rewrite Z.sub_diag. simpl (2 ^ 0). intros Hk.
      assert (Hp : 0 < 2 ^ (- e)) by (apply Z.pow_pos_nonneg; lia).
      rewrite Z.mul_1_r in Hk. rewrite Hk. apply Z.div_mul. lia.
Qed.

Lemma Zfloor_abs s m e : e < 0 -> Z.abs (Zfloor (S754_finite s m e)) <= Zpos m.
Proof.
  intros He. simpl. destruct (Z.leb_spec 0 e); [lia|].
  assert (Hp : 0 < 2 ^ (- e)) by (apply Z.pow_pos_nonneg; lia).
  destruct s; simpl.
  - assert (- Zpos m <= Z.neg m / 2 ^ (- e)).
    { apply Z.div_le_lower_bound; [lia|]. nia. }
    assert (Z.neg m / 2 ^ (- e) < 0).
    { apply Z.div_lt_upper_bound; lia. }
    lia.
  - assert (0 <= Zpos m / 2 ^ (- e)) by (apply Z.div_pos; lia).
    assert (Zpos m / 2 ^ (- e) <= Zpos m).
    { apply Z.div_le_upper_bound; [lia|]. nia. }
    lia.
Qed.

(** [Math.floor] of a zero or finite number is the integer [Zfloor]. *)
Lemma Math_floor_int x :
  rounded x -> (exists s, x = S754_infinity s) \/ is_int (Math_floor x) (Zfloor x).
Proof.
  destruct x as [s|s| |s m e]; simpl; intros Hx.
  - right. reflexivity.
  - left. eauto.
  - tauto.
  - right. destruct (Z.leb_spec 0 e) as [He|He].
    + unfold is_int. simpl. rewrite Z.min_r by lia. rewrite Z.sub_0_r. simpl (2 ^ (- 0)). lia.
    + apply is_int_num_of_Z.
      pose proof (Zfloor_abs s m e He) as Hb. simpl in Hb.
      destruct (Z.leb_spec 0 e); [lia|]. lia.
Qed.

(** A product of zeros and finite numbers is not NaN. *)
Lemma js_mul_rounded x y :
  x <> S754_nan -> y <> S754_nan ->
  (forall s, x <> S754_infinity s) -> (forall s, y <> S754_infinity s) ->
  rounded (js_mul x y).
Proof.
  intros Hx Hy Hxi Hyi. unfold js_mul.
  destruct x as [sx|sx| |sx mx ex], y as [sy|sy| |sy my ey]; simpl;
    try congruence; try exact I;
    try (exfalso; eapply Hxi; reflexivity); try (exfalso; eapply Hyi; reflexivity).
  destruct (binary_round_aux_cases (xorb sx sy) (Zpos (mx * my)) (ex + ey) loc_Exact ltac:(lia))
    as [E|[E|(m' & e' & E & Hm)]]; rewrite E; simpl; auto.
Qed.

(** ** Clamping to the 16-bit range *)

Lemma Math_max_int x y k c :
  is_int x k -> is_int y c -> is_int (Math_max x y) (Z.max k c).
Proof.
  intros Hx Hy. unfold Math_max. rewrite (js_compare_int x y k c Hx Hy).
  destruct (Z.compare_spec k c) as [->|Hlt|Hgt].
  - rewrite Z.max_id. destruct x as [[]| | |]; assumption.
  - rewrite Z.max_r by lia. assumption.
  - rewrite Z.max_l by lia. assumption.
Qed.

Lemma Math_min_int x y k c :
  is_int x k -> is_int y c -> is_int (Math_min x y) (Z.min k c).
Proof.
  intros Hx Hy. unfold Math_min. rewrite (js_compare_int x y k c Hx Hy).
  destruct (Z.compare_spec k c) as [->|Hlt|Hgt].
  - rewrite Z.min_id. destruct x as [[]| | |]; assumption.
  - rewrite Z.min_l by lia. assumption.
  - rewrite Z.min_r by lia. assumption.
Qed.

Lemma is_int_lo : is_int (num_of_Z (-32768)) (-32768).
Proof. apply is_int_num_of_Z. simpl. lia. Qed.
Lemma is_int_hi : is_int (num_of_Z 32767) 32767.
Proof. apply is_int_num_of_Z. simpl. lia. Qed.

(** What is written for a product that is not NaN: the clamped floor, an
    integer within the 16-bit range. *)
Lemma clip_rounded product :
  rounded product ->
  exists z, clamp_floor product = Some z
            /\ is_int (clip product) z
            /\ -32768 <= z <= 32767.
Proof.
  intros Hr. destruct (Math_floor_int product Hr) as [[s ->]|Hi].
  - destruct s; eexists; (split; [reflexivity|]); (split; [|lia]).
    + exact is_int_lo.
    + exact is_int_hi.
  - exists (clamp16 (Zfloor product)). split; [|split].
    + destruct product as [s|s| |s m e]; simpl in *; try reflexivity; try tauto.
      destruct Hi.
    + unfold clip, clamp16. apply Math_min_int; [|exact is_int_hi].
      apply Math_max_int; [assumption|exact is_int_lo].
    + unfold clamp16. lia.
Qed.

(** The value that [writeInt16LE] receives passes its range check, whatever
    the product was. *)
Lemma clip_in_range product :
  product = S754_nan \/ rounded product ->
  js_gt (clip product) (num_of_Z 32767) = false
  /\ js_lt (clip product) (num_of_Z (-32768)) = false.
Proof.
  intros [->|Hr].
  - split; reflexivity.
  - destruct (clip_rounded product Hr) as (z & _ & Hz & Hb).
    unfold js_gt, js_lt.
    rewrite (js_compare_int _ _ _ _ Hz is_int_hi), (js_compare_int _ _ _ _ Hz is_int_lo).
    split.
    + destruct (Z.compare_spec z 32767); try reflexivity. lia.
    + destruct (Z.compare_spec z (-32768)); try reflexivity. lia.
Qed.

Lemma js_mul_nan_or_rounded x y : js_mul x y = S754_nan \/ rounded (js_mul x y).
Proof.
  unfold js_mul.
  destruct x as [sx|sx| |sx mx ex], y as [sy|sy| |sy my ey]; simpl; auto.
  destruct (binary_round_aux_cases (xorb sx sy) (Zpos (mx * my)) (ex + ey) loc_Exact ltac:(lia))
    as [E|[E|(m' & e' & E & Hm)]]; rewrite E; simpl; auto.
Qed.

(** ** Bytes and the sign of a 16-bit sample *)

Lemma byte_to_Z_range b : 0 <= Buffer.byte_to_Z b < 256.
Proof.
  unfold Buffer.byte_to_Z. pose proof (Byte.to_N_bounded b). lia.
Qed.

(** Storing an integer in a byte keeps it modulo 256. *)
Lemma byte_to_of_Z z : Buffer.byte_to_Z (Buffer.byte_of_Z z) = z mod 256.
Proof.
  unfold Buffer.byte_to_Z, Buffer.byte_of_Z.
  assert (Hr : 0 <= z mod 2 ^ 8 < 256) by (apply Z.mod_pos_bound; reflexivity).
  destruct (Byte.of_N (Z.to_N (z mod 2 ^ 8))) as [b|] eqn:E.
  - simpl. apply Byte.to_of_N in E. rewrite E. rewrite Z2N.id by lia. reflexivity.
  - apply Byte.of_N_None_iff in E. lia.
Qed.

Lemma all_from_spec n f : forall z0,
  all_from n z0 f = true -> forall z, z0 <= z < z0 + Z.of_nat n -> f z = true.
Proof.
  induction n as [|n IH]; simpl; intros z0 Hf z Hz; [lia|].
  apply andb_true_iff in Hf as [H1 H2].
  destruct (Z.eq_dec z z0) as [->|Hne]; [assumption|].
  apply (IH (z0 + 1)); [assumption|lia].
Qed.

(** The sign extension of [readInt16LE], checked on every 16-bit pattern. *)
Lemma sign_extend16_spec val :
  0 <= val < 65536 ->
  Buffer.sign_extend16 val = if val <? 32768 then val else val - 65536.
Proof.
  intros Hv.
  assert (Hall : all_from (Z.to_nat 65536) 0
            (fun v => Buffer.sign_extend16 v =? (if v <? 32768 then v else v - 65536)) = true)
    by (vm_compute; reflexivity).
  apply Z.eqb_eq. apply (all_from_spec _ _ _ Hall).
  rewrite Z2Nat.id by lia. lia.
Qed.

(** ** The loop of [adjustVolume] *)

Lemma readInt16LE_lookup buf i first last :
  buf !! i = Some first -> buf !! (i + 1)%nat = Some last ->
  Buffer.readInt16LE buf i = inr (int16 first last).
Proof. intros H1 H2. unfold Buffer.readInt16LE. rewrite H1, H2. reflexivity. Qed.

(** Inside the buffer, writing a clipped product never throws. *)
Lemma writeInt16LE_scaled buf volume first last i :
  (i + 1 < length buf)%nat ->
  Buffer.writeInt16LE buf (scaled volume first last) i =
    inr (<[(i + 1)%nat := Buffer.byte_of_Z (js_ushr (scaled volume first last) 8)]>
           (<[i := Buffer.byte_of_Z (ToUint8 (scaled volume first last))]> buf)).
Proof.
  intros Hi. unfold Buffer.writeInt16LE, scaled.
  destruct (clip_in_range _ (js_mul_nan_or_rounded (num_of_Z (int16 first last)) volume))
    as [-> ->]. cbv [orb].
  destruct (lookup_lt_is_Some_2 buf i ltac:(lia)) as [x ->].
  destruct (lookup_lt_is_Some_2 buf (i + 1)%nat ltac:(lia)) as [y ->].
  reflexivity.
Qed.

Lemma adjustVolume_loop_S fuel volume audioData i newAudioData :
  adjustVolume_loop (S fuel) volume audioData i newAudioData =
    if (i <? length audioData)%nat then
      if (i + 1 <? length audioData)%nat then
        match Buffer.readInt16LE audioData i with
        | inl e => inl e
        | inr sample =>
            match Buffer.writeInt16LE newAudioData
                    (clip (js_mul (num_of_Z sample) volume)) i with
            | inl e => inl e
            | inr newAudioData' =>
                adjustVolume_loop fuel volume audioData (i + 2)%nat newAudioData'
            end
        end
      else adjustVolume_loop fuel volume audioData (i + 2)%nat newAudioData
    else inr newAudioData.
Proof. reflexivity. Qed.

Lemma adjustVolume_loop_done fuel volume audioData i newAudioData :
  (length audioData <= i)%nat ->
  adjustVolume_loop fuel volume audioData i newAudioData = inr newAudioData.
Proof.
  intros Hi. destruct fuel; simpl;
    (destruct (Nat.ltb_spec i (length audioData)); [lia|reflexivity]).
Qed.

(** The loop invariant: with [done] written so far and zeros behind it, and
    fuel for the rest, the loop ends on its condition and returns [done]
    followed by the scaled rest of the input. *)
Lemma adjustVolume_loop_spec volume audioData : forall fuel done,
  (length done <= length audioData)%nat ->
  (length audioData <= length done + 2 * fuel)%nat ->
  adjustVolume_loop fuel volume audioData (length done)
    (done ++ replicate (length audioData - length done) Byte.x00)
  = inr (done ++ scale_pairs volume (drop (length done) audioData)).
Proof.
  induction fuel as [|fuel IH]; intros done Hle Hfuel.
  - assert (Hlen : length done = length audioData) by lia.
    rewrite adjustVolume_loop_done by lia.
    rewrite Hlen, Nat.sub_diag, drop_all. reflexivity.
  - rewrite adjustVolume_loop_S.
    destruct (Nat.ltb_spec (length done) (length audioData)) as [Hlt|Hge].
    2:{ assert (Hlen : length done = length audioData) by lia.
        rewrite Hlen, Nat.sub_diag, drop_all. reflexivity. }
    destruct (lookup_lt_is_Some_2 audioData (length done) Hlt) as [first Hfirst].
    rewrite (drop_S _ _ _ Hfirst).
    destruct (Nat.ltb_spec (length done + 1) (length audioData)) as [Hlt1|Hge1].
    + destruct (lookup_lt_is_Some_2 audioData (length done + 1) Hlt1) as [last Hlast].
      rewrite (drop_S _ last (S (length done))) by (rewrite <- Hlast; f_equal; lia).
      rewrite (readInt16LE_lookup _ _ _ _ Hfirst Hlast).
      fold (scaled volume first last).
      rewrite writeInt16LE_scaled by (rewrite length_app, length_replicate; lia).
      replace (length audioData - length done)%nat
        with (S (S (length audioData - (length done + 2))))%nat by lia.
      simpl replicate.
      rewrite (insert_app_r_alt done _ (length done)) by lia.
      rewrite Nat.sub_diag. simpl.
      rewrite (insert_app_r_alt done _ (length done + 1)) by lia.
      replace (length done + 1 - length done)%nat with 1%nat by lia. simpl.
      specialize (IH (done ++ [Buffer.byte_of_Z (ToUint8 (scaled volume first last));
                               Buffer.byte_of_Z (js_ushr (scaled volume first last) 8)])).
      rewrite length_app in IH. simpl length in IH.
      rewrite <- !app_assoc in IH. simpl app in IH.
      rewrite IH by lia.
      replace (S (S (length done))) with (length done + 2)%nat by lia.
      reflexivity.
    + assert (Hlen : length audioData = S (length done)) by lia.
      assert (Hdrop : drop (S (length done)) audioData = []).
      { apply drop_ge. lia. }
      rewrite Hdrop. simpl scale_pairs.
      replace (length audioData - length done)%nat with 1%nat by lia. simpl replicate.
      apply adjustVolume_loop_done. lia.
Qed.

Lemma length_scale_pairs volume : forall audioData,
  length (scale_pairs volume audioData) = length audioData.
Proof.
  fix IH 1. intros [|first [|last rest]]; simpl; try reflexivity.
  rewrite IH. reflexivity.
Qed.

(** ** What [adjustVolume] writes, sample by sample *)

Lemma int16_range first last : -32768 <= int16 first last <= 32767.
Proof.
  unfold int16.
  pose proof (byte_to_Z_range first). pose proof (byte_to_Z_range last).
  rewrite sign_extend16_spec by lia.
  destruct (Z.ltb_spec (Buffer.byte_to_Z first + Buffer.byte_to_Z last * 2 ^ 8) 32768); lia.
Qed.

(** Reading back the two bytes written for an integer of the 16-bit range. *)
Lemma int16_written v z :
  is_int v z -> -32768 <= z <= 32767 ->
  int16 (Buffer.byte_of_Z (ToUint8 v)) (Buffer.byte_of_Z (js_ushr v 8)) = z.
Proof.
  intros Hv Hz. unfold int16, ToUint8, js_ushr, ToUint32.
  rewrite (truncate_int v z Hv), !byte_to_of_Z.
  rewrite Z.shiftr_div_pow2 by lia.
  assert (E : (z mod 2 ^ 8) mod 256 + (z mod 2 ^ 32 / 2 ^ 8) mod 256 * 2 ^ 8 = z mod 65536).
  { change (2 ^ 8) with 256. change (2 ^ 32) with 4294967296.
    Z.div_mod_to_equations. lia. }
  rewrite E. rewrite sign_extend16_spec by (apply Z.mod_pos_bound; lia).
  destruct (Z.ltb_spec (z mod 65536) 32768); Z.div_mod_to_equations; lia.
Qed.

Lemma num_of_Z_not_nan z : Z.abs z < 2 ^ 53 -> num_of_Z z <> S754_nan.
Proof.
  intros Hz. rewrite num_of_Z_exact by assumption.
  destruct z; unfold canon; try discriminate;
    destruct (53 - Zpos (digits2_pos p)); discriminate.
Qed.

Lemma num_of_Z_not_inf z s : Z.abs z < 2 ^ 53 -> num_of_Z z <> S754_infinity s.
Proof.
  intros Hz. rewrite num_of_Z_exact by assumption.
  destruct z; unfold canon; try discriminate;
    destruct (53 - Zpos (digits2_pos p)); discriminate.
Qed.

(** A gain between 0 and 1 is a zero or a finite number. *)
Lemma unit_interval_finite g :
  js_le (num_of_Z 0) g = true -> js_le g (num_of_Z 1) = true ->
  g <> S754_nan /\ forall s, g <> S754_infinity s.
Proof.
  intros H0 H1. destruct g as [s|[]| |s m e]; try discriminate; split; congruence.
Qed.

(** The sample written for a gain between 0 and 1. *)
Lemma scaled_spec g first last :
  js_le (num_of_Z 0) g = true -> js_le g (num_of_Z 1) = true ->
  exists z, clamp_floor (js_mul (num_of_Z (int16 first last)) g) = Some z
            /\ is_int (scaled g first last) z
            /\ -32768 <= z <= 32767.
Proof.
  intros H0 H1. destruct (unit_interval_finite g H0 H1) as [Hn Hi].
  pose proof (int16_range first last) as Hr.
  apply clip_rounded. apply js_mul_rounded; try assumption.
  - apply num_of_Z_not_nan. lia.
  - intros s. apply num_of_Z_not_inf. lia.
Qed.

Lemma readInt16LE_head a b (buf : Buffer.t) :
  Buffer.readInt16LE (a :: b :: buf) 0 = inr (int16 a b).
Proof. reflexivity. Qed.

Lemma readInt16LE_cons2 a b (buf : Buffer.t) i :
  Buffer.readInt16LE (a :: b :: buf) (S (S i)) = Buffer.readInt16LE buf i.
Proof. reflexivity. Qed.

(** Sample by sample: what is read from the output at an even offset is the
    clamped floor of the product of the input sample with the gain. *)
Lemma scale_pairs_sample g :
  js_le (num_of_Z 0) g = true -> js_le g (num_of_Z 1) = true ->
  forall k (audioData : Buffer.t) sample,
  Buffer.readInt16LE audioData (2 * k) = inr sample ->
  exists z, clamp_floor (js_mul (num_of_Z sample) g) = Some z
            /\ Buffer.readInt16LE (scale_pairs g audioData) (2 * k) = inr z
            /\ -32768 <= z <= 32767.
Proof.
  intros H0 H1. induction k as [|k IH]; intros audioData sample Hread.
  - destruct audioData as [|first [|last rest]]; try discriminate.
    change (2 * 0)%nat with 0%nat in *.
    rewrite readInt16LE_head in Hread. injection Hread as <-.
    destruct (scaled_spec g first last H0 H1) as (z & Hc & Hi & Hz).
    exists z. split; [exact Hc|]. split; [|exact Hz].
    simpl scale_pairs. rewrite readInt16LE_head.
    f_equal. apply int16_written; assumption.
  - replace (2 * S k)%nat with (S (S (2 * k))) in * by lia.
    destruct audioData as [|first [|last rest]]; try discriminate.
    rewrite readInt16LE_cons2 in Hread.
    destruct (IH rest sample Hread) as (z & Hc & Hr & Hz).
    exists z. split; [exact Hc|]. split; [|exact Hz].
    simpl scale_pairs. rewrite readInt16LE_cons2. exact Hr.
Qed.

(** A last odd byte is neither read nor written. *)
Lemma scale_pairs_odd g : forall (audioData : Buffer.t) x,
  Nat.Even (length audioData) ->
  scale_pairs g (audioData ++ [x]) = scale_pairs g audioData ++ [Byte.x00].
Proof.
  fix IH 1. intros [|first [|last rest]] x Hev.
  - reflexivity.
  - destruct Hev as [n Hn]. simpl in Hn. lia.
  - simpl. rewrite IH; [reflexivity|].
    destruct Hev as [n Hn]. simpl in Hn. exists (n - 1)%nat. lia.
Qed.

(** [adjustVolume] never throws: at level 1 it returns its input, at any
    other level the scaled pairs. *)
Lemma adjustVolume_at_spec volume (audioData : Buffer.t) :
  adjustVolume_at volume audioData =
    inr (if js_seq volume (num_of_Z 1) then audioData else scale_pairs volume audioData).
Proof.
  unfold adjustVolume_at. destruct (js_seq volume (num_of_Z 1)); [reflexivity|].
  pose proof (adjustVolume_loop_spec volume audioData (length audioData) [] ) as Hl.
  simpl in Hl. rewrite Nat.sub_0_r in Hl. apply Hl; lia.
Qed.

Lemma adjustVolume_spec (audioData : Buffer.t) (s : CallMediaQueue) :
  adjustVolume audioData s = (adjustVolume_at (volumeLevel s) audioData, s).
Proof.
  pose proof (adjustVolume_at_spec (volumeLevel s) audioData) as Hat.
  unfold adjustVolume, adjustVolume_at in *.
  unfold mbind, mret, M_bind, M_ret, bind, ret, gets, try_catch, lift.
  destruct (js_seq (volumeLevel s) (num_of_Z 1)); [reflexivity|].
  rewrite Hat. reflexivity.
Qed.

(** [a >= b] on two array lengths is the order of the integers. *)
Lemma js_ge_nat (a b : nat) :
  Z.of_nat a < 2 ^ 53 -> Z.of_nat b < 2 ^ 53 ->
  js_ge (num_of_nat a) (num_of_nat b) = (b <=? a)%nat.
Proof.
  intros Ha Hb. unfold js_ge, num_of_nat.
  rewrite (js_compare_int _ _ (Z.of_nat a) (Z.of_nat b))
    by (apply is_int_num_of_Z; lia).
  destruct (Z.compare_spec (Z.of_nat a) (Z.of_nat b));
    destruct (Nat.leb_spec b a); try reflexivity; lia.
Qed.

(** ** A sample times a gain does not overflow *)

(** The exponent after a shift to the exponent of the format. *)
Lemma shr_fexp_exp m e l B :
  -1074 <= B -> e <= B -> Zdigits2 m + e - 53 <= B ->
  snd (shr_fexp prec emax m e l) <= B.
Proof.
  intros HB He Hd. unfold shr_fexp, shr.
  destruct (fexp prec emax (Zdigits2 m + e) - e) as [|k|k] eqn:Hk; simpl snd; try lia.
  unfold fexp, emin, prec, emax in Hk. lia.
Qed.

Lemma Zdigits2_le m k : 0 <= m -> 0 <= k -> m < 2 ^ k -> Zdigits2 m <= k.
Proof.
  intros Hm Hk Hlt. destruct m as [|p|p]; simpl; try lia.
  apply digits2_pos_le; assumption.
Qed.

(** Rounding a value whose exponents stay below [B] cannot overflow. *)
Lemma binary_round_aux_real s m e l B :
  0 <= m -> -1074 <= B -> B + 1 <= 971 ->
  e <= B -> Zdigits2 m + e - 53 <= B ->
  is_real (binary_round_aux prec emax s m e l).
Proof.
  intros Hm HB HB1 He Hd. unfold binary_round_aux.
  pose proof (shr_fexp_bound m e l Hm) as [H1 _].
  pose proof (shr_fexp_exp m e l B HB He Hd) as He1.
  destruct (shr_fexp prec emax m e l) as [mrs' e'] eqn:E1. simpl fst in H1. simpl snd in He1.
  set (m1 := round_nearest_even (shr_m mrs') (loc_of_shr_record mrs')).
  pose proof (round_nearest_even_bound (shr_m mrs') (loc_of_shr_record mrs') ltac:(lia)) as H2.
  fold m1 in H2.
  assert (Hm1 : 0 <= m1) by lia.
  assert (Hd1 : Zdigits2 m1 <= 54).
  { apply Zdigits2_le; lia. }
  pose proof (shr_fexp_exp m1 e' loc_Exact (B + 1) ltac:(lia) ltac:(lia) ltac:(lia)) as He2.
  pose proof (shr_fexp_bound m1 e' loc_Exact Hm1) as [H3 _].
  destruct (shr_fexp prec emax m1 e' loc_Exact) as [mrs'' e''] eqn:E2.
  simpl fst in H3. simpl snd in He2.
  destruct (shr_m mrs'') as [|p|p]; try exact I; try lia.
  destruct (Z.leb_spec e'' (emax - prec)) as [_|Hgt]; [exact I|].
  unfold emax, prec in Hgt. lia.
Qed.

Lemma digits2_pos_mul p q :
  Zpos (digits2_pos (p * q)) <= Zpos (digits2_pos p) + Zpos (digits2_pos q).
Proof.
  apply digits2_pos_le; [lia|].
  pose proof (digits2_pos_bounds p) as [_ Hp].
  pose proof (digits2_pos_bounds q) as [_ Hq].
  rewrite Z.pow_add_r by lia. rewrite Pos2Z.inj_mul. nia.
Qed.

(** The mantissa of an integer below [2^53] has 53 bits, and its exponent
    is the number of bits of the integer minus 53. *)
Lemma canon_shape s p :
  Zpos p < 2 ^ 53 ->
  exists m, canon s p = S754_finite s m (Zpos (digits2_pos p) - 53)
            /\ Zpos (digits2_pos m) = 53.
Proof.
  intros Hp. pose proof (digits2_pos_le p 53 ltac:(lia) Hp) as Hd.
  unfold canon. destruct (53 - Zpos (digits2_pos p)) as [|k|k] eqn:Hk; try lia.
  - exists p. split; [f_equal; lia|lia].
  - exists (Pos.iter xO p k). split; [reflexivity|].
    rewrite digits2_pos_iter_xO. lia.
Qed.

(** A finite number that is at most 1: its bits end at or below the unit. *)
Lemma le_one_digits s m e :
  js_le (S754_finite s m e) (num_of_Z 1) = true ->
  s = true \/ Zpos (digits2_pos m) + e <= 1.
Proof.
  intros H. destruct s; [left; reflexivity|right].
  unfold js_le in H.
  change (num_of_Z 1) with (S754_finite false 4503599627370496 (-52)) in H.
  unfold js_compare, dyadic, cmp_dyadic in H. simpl fst in H. simpl snd in H.
  simpl cond_Zopp in H.
  set (E := Z.min e (-52)) in *.
  assert (Hle : Zpos m * 2 ^ (e - E) <= 4503599627370496 * 2 ^ (-52 - E)).
  { destruct (Z.compare_spec (Zpos m * 2 ^ (e - E)) (4503599627370496 * 2 ^ (-52 - E)));
      try lia; try discriminate. }
  change 4503599627370496 with (2 ^ 52) in Hle.
  rewrite <- Z.pow_add_r in Hle by lia.
  pose proof (digits2_pos_bounds m) as [Hlo _].
  assert (H2 : 2 ^ (Zpos (digits2_pos m) - 1) * 2 ^ (e - E) <= 2 ^ (52 + (-52 - E))).
  { eapply Z.le_trans; [|exact Hle]. apply Z.mul_le_mono_nonneg_r; [|exact Hlo].
    apply Z.pow_nonneg. lia. }
  rewrite <- Z.pow_add_r in H2 by lia.
  apply Z.pow_le_mono_r_iff in H2; lia.
Qed.

Lemma zero_le_negative m e :
  js_le (num_of_Z 0) (S754_finite true m e) = false.
Proof.
  unfold js_le. change (num_of_Z 0) with (S754_zero false).
  unfold js_compare, dyadic, cmp_dyadic. simpl fst. simpl snd. simpl cond_Zopp.
  set (E := Z.min 0 e).
  assert (Hp : 0 < 2 ^ (e - E)) by (apply Z.pow_pos_nonneg; lia).
  match goal with |- context [?a ?= ?b] => destruct (Z.compare_spec a b) end;
    try reflexivity; exfalso; nia.
Qed.

(** The product of a 16-bit sample with a gain between 0 and 1 is a zero or
    a finite number: no NaN, no overflow. *)
Lemma sample_times_gain_real sample g :
  -32768 <= sample <= 32767 ->
  js_le (num_of_Z 0) g = true -> js_le g (num_of_Z 1) = true ->
  is_real (js_mul (num_of_Z sample) g).
Proof.
  intros Hs H0 H1.
  rewrite num_of_Z_exact by lia.
  destruct g as [sg|sg| |sg mg eg]; try (destruct sg; discriminate); try discriminate.
  - destruct sample; [exact I| |]; unfold canon;
      destruct (53 - Zpos (digits2_pos p)); exact I.
  - destruct (le_one_digits sg mg eg H1) as [->|Hg];
      [rewrite zero_le_negative in H0; discriminate|].
    assert (Hcase : forall s p, Zpos p <= 32768 ->
              is_real (js_mul (canon s p) (S754_finite sg mg eg))).
    { intros s p Hp.
      destruct (canon_shape s p ltac:(lia)) as (m & -> & Hm).
      unfold js_mul, SFmul.
      assert (Hdp : Zpos (digits2_pos p) <= 16).
      { apply digits2_pos_le; [lia|]. change (2 ^ 16) with 65536. lia. }
      pose proof (digits2_pos_mul m mg) as Hmul.
      apply (binary_round_aux_real _ _ _ _ (-36)); try lia.
      simpl Zdigits2. lia. }
    destruct sample as [|p|p]; [exact I| |]; apply Hcase; lia.
Qed.

(** ** The comparison of the model and [SFcompare] *)

(** A mantissa and an exponent of the format: at most 53 bits, and exactly
    53 above the least exponent. *)
Lemma bounded_shape m e :
  bounded prec emax m e = true ->
  -1074 <= e /\ Zpos m < 2 ^ 53 /\ (-1074 < e -> 2 ^ 52 <= Zpos m).
Proof.
  unfold bounded, canonical_mantissa, fexp, emin, prec, emax.
  intros Hb. apply andb_true_iff in Hb as [Hc _]. apply Z.eqb_eq in Hc.
  pose proof (digits2_pos_bounds m) as [Hlo Hhi].
  split; [lia|]. split.
  - eapply Z.lt_le_trans; [exact Hhi|]. apply Z.pow_le_mono_r; lia.
  - intros He. replace (Zpos (digits2_pos m)) with 53 in Hlo by lia. exact Hlo.
Qed.

Lemma cmp_pos_canonical m1 e1 m2 e2 :
  bounded prec emax m1 e1 = true -> bounded prec emax m2 e2 = true ->
  cmp_dyadic (Zpos m1, e1) (Zpos m2, e2) =
    match e1 ?= e2 with
    | Lt => Lt
    | Gt => Gt
    | Eq => Pos.compare_cont Eq m1 m2
    end.
Proof.
  intros B1 B2.
  destruct (bounded_shape m1 e1 B1) as (L1 & U1 & N1).
  destruct (bounded_shape m2 e2 B2) as (L2 & U2 & N2).
  unfold cmp_dyadic. simpl fst. simpl snd.
  destruct (Z.compare_spec e1 e2) as [->|Hlt|Hgt].
  - rewrite Z.min_id, Z.sub_diag. simpl (2 ^ 0). rewrite !Z.mul_1_r. reflexivity.
  - rewrite Z.min_l by lia. rewrite Z.sub_diag. simpl (2 ^ 0). rewrite Z.mul_1_r.
    apply Z.compare_lt_iff.
    assert (2 ^ 1 <= 2 ^ (e2 - e1)) by (apply Z.pow_le_mono_r; lia).
    specialize (N2 ltac:(lia)). change (2 ^ 1) with 2 in *.
    change (2 ^ 53) with (2 ^ 52 * 2) in U1. nia.
  - rewrite Z.min_r by lia. rewrite Z.sub_diag. simpl (2 ^ 0). rewrite Z.mul_1_r.
    apply Z.compare_gt_iff.
    assert (2 ^ 1 <= 2 ^ (e1 - e2)) by (apply Z.pow_le_mono_r; lia).
    specialize (N1 ltac:(lia)). change (2 ^ 1) with 2 in *.
    change (2 ^ 53) with (2 ^ 52 * 2) in U2. nia.
Qed.

Lemma cmp_dyadic_opp m1 e1 m2 e2 :
  cmp_dyadic (- m1, e1) (- m2, e2) = CompOpp (cmp_dyadic (m1, e1) (m2, e2)).
Proof.
  unfold cmp_dyadic. simpl fst. simpl snd.
  rewrite !Z.mul_opp_l. rewrite Z.compare_opp. apply Z.compare_antisym.
Qed.

Lemma cmp_dyadic_signs (m1 m2 : positive) e1 e2 :
  cmp_dyadic (Zneg m1, e1) (Zpos m2, e2) = Lt
  /\ cmp_dyadic (Zpos m1, e1) (Zneg m2, e2) = Gt
  /\ cmp_dyadic (Zneg m1, e1) (0, 0) = Lt
  /\ cmp_dyadic (Zpos m1, e1) (0, 0) = Gt
  /\ cmp_dyadic (0, 0) (Zneg m2, e2) = Gt
  /\ cmp_dyadic (0, 0) (Zpos m2, e2) = Lt.
Proof.
  unfold cmp_dyadic. simpl fst. simpl snd.
  assert (P : forall a, 0 <= a -> 0 < 2 ^ a) by (intros; apply Z.pow_pos_nonneg; lia).
  pose proof (P (e1 - Z.min e1 e2) ltac:(lia)).
  pose proof (P (e2 - Z.min e1 e2) ltac:(lia)).
  pose proof (P (e1 - Z.min e1 0) ltac:(lia)).
  pose proof (P (e2 - Z.min 0 e2) ltac:(lia)).
  repeat split;
    first [apply Z.compare_lt_iff | apply Z.compare_gt_iff]; nia.
Qed.

(** On the values of the format, the comparison of the model is the one of
    the Standard Library's specification of binary64. *)
Lemma js_compare_SFcompare x y :
  valid_binary prec emax x = true -> valid_binary prec emax y = true ->
  js_compare x y = SFcompare x y.
Proof.
  destruct x as [sx|sx| |sx mx ex], y as [sy|sy| |sy my ey]; simpl valid_binary;
    intros Vx Vy; try reflexivity.
  - unfold js_compare, SFcompare, dyadic. f_equal.
    destruct (cmp_dyadic_signs my my ey ey) as (_ & _ & _ & _ & Hn & Hp).
    destruct sy; simpl cond_Zopp; assumption.
  - unfold js_compare, SFcompare, dyadic. f_equal.
    destruct (cmp_dyadic_signs mx mx ex ex) as (_ & _ & Hn & Hp & _).
    destruct sx; simpl cond_Zopp; assumption.
  - unfold js_compare, SFcompare, dyadic. f_equal.
    destruct sx, sy; simpl cond_Zopp.
    + change (Z.neg mx) with (- Zpos mx). change (Z.neg my) with (- Zpos my).
      rewrite cmp_dyadic_opp, cmp_pos_canonical by assumption.
      destruct (ex ?= ey); reflexivity.
    + apply cmp_dyadic_signs.
    + apply cmp_dyadic_signs.
    + apply cmp_pos_canonical; assumption.
Qed.

(** Two values of the format that are [===] are the same number, or two
    zeros. *)
Lemma js_seq_valid_eq x y :
  valid_binary prec emax x = true -> valid_binary prec emax y = true ->
  js_seq x y = true ->
  x = y \/ exists sx sy, x = S754_zero sx /\ y = S754_zero sy.
Proof.
  intros Vx Vy. unfold js_seq. rewrite (js_compare_SFcompare x y Vx Vy).
  destruct x as [sx|sx| |sx mx ex], y as [sy|sy| |sy my ey]; simpl;
    try discriminate; try (destruct sx; discriminate); try (destruct sy; discriminate).
  - intros _. right. eauto.
  - destruct sx, sy; try discriminate; intros _; left; reflexivity.
  - destruct sx, sy; try discriminate;
      destruct (Z.compare_spec ex ey) as [->| |]; try discriminate;
      destruct (Pos.compare_cont Eq mx my) eqn:C; try discriminate;
      apply Pos.compare_eq in C; subst; intros _; left; reflexivity.
Qed.

(** ** The methods as equations *)

Lemma cmp_dyadic_antisym a b : cmp_dyadic b a = CompOpp (cmp_dyadic a b).
Proof.
  unfold cmp_dyadic. rewrite (Z.min_comm (snd b) (snd a)). apply Z.compare_antisym.
Qed.

Lemma js_compare_antisym x y :
  js_compare y x = option_map CompOpp (js_compare x y).
Proof.
  destruct x as [sx|[]| |sx mx ex], y as [sy|[]| |sy my ey]; simpl; try reflexivity;
    try (destruct sx; reflexivity); try (destruct sy; reflexivity);
    f_equal; apply cmp_dyadic_antisym.
Qed.

Lemma js_compare_refl x :
  x <> S754_nan -> js_compare x x = Some Eq.
Proof.
  destruct x as [s|[]| |s m e]; simpl; try congruence; intros _; f_equal;
    unfold cmp_dyadic; apply Z.compare_refl.
Qed.

Lemma js_seq_sym x y : js_seq x y = js_seq y x.
Proof.
  unfold js_seq. rewrite (js_compare_antisym x y).
  destruct (js_compare x y) as [[]|]; reflexivity.
Qed.

(** ** Silence *)

Lemma byte_of_Z_0 : Buffer.byte_of_Z 0 = Byte.x00.
Proof. reflexivity. Qed.

Lemma scaled_zero_bytes volume first last :
  clamp_floor (js_mul (num_of_Z (int16 first last)) volume) = Some 0
  \/ js_mul (num_of_Z (int16 first last)) volume = S754_nan ->
  Buffer.byte_of_Z (ToUint8 (scaled volume first last)) = Byte.x00
  /\ Buffer.byte_of_Z (js_ushr (scaled volume first last) 8) = Byte.x00.
Proof.
  unfold scaled. intros [Hc|Hn].
  - destruct (js_mul_nan_or_rounded (num_of_Z (int16 first last)) volume) as [E|Hr].
    { rewrite E in Hc. discriminate. }
    destruct (clip_rounded _ Hr) as (z & Hz & Hi & _).
    rewrite Hc in Hz. injection Hz as <-.
    unfold ToUint8, js_ushr, ToUint32. rewrite (truncate_int _ 0 Hi). split; reflexivity.
  - rewrite Hn. split; reflexivity.
Qed.

Lemma scale_pairs_silence volume :
  (forall first last,
      clamp_floor (js_mul (num_of_Z (int16 first last)) volume) = Some 0
      \/ js_mul (num_of_Z (int16 first last)) volume = S754_nan) ->
  forall audioData : Buffer.t,
  scale_pairs volume audioData = replicate (length audioData) Byte.x00.
Proof.
  intros Hv. fix IH 1. intros [|first [|last rest]]; simpl; try reflexivity.
  destruct (scaled_zero_bytes volume first last (Hv first last)) as [-> ->].
  rewrite IH. reflexivity.
Qed.

Lemma sample_times_zero sample sgn :
  -32768 <= sample <= 32767 ->
  clamp_floor (js_mul (num_of_Z sample) (S754_zero sgn)) = Some 0.
Proof.
  intros Hs. rewrite num_of_Z_exact by lia.
  destruct sample as [|p|p]; [reflexivity| |];
    unfold canon; destruct (53 - Zpos (digits2_pos p)); reflexivity.
Qed.

Lemma sample_times_nan sample :
  -32768 <= sample <= 32767 -> js_mul (num_of_Z sample) S754_nan = S754_nan.
Proof.
  intros Hs. rewrite num_of_Z_exact by lia.
  destruct sample as [|p|p]; [reflexivity| |];
    unfold canon; destruct (53 - Zpos (digits2_pos p)); reflexivity.
Qed.

(** X7: at volume level 0 (either zero) [adjustVolume] returns silence: as
    many zero bytes as the input has bytes.  The same holds at the level
    NaN, which [setVolume] lets through. *)
Theorem adjustVolume_zero_is_silence (s : CallMediaQueue) (audioData : Buffer.t) :
  (forall sgn,
      adjustVolume audioData (set_volumeLevel (S754_zero sgn) s)
      = (inr (replicate (length audioData) Byte.x00), set_volumeLevel (S754_zero sgn) s))
  /\ adjustVolume audioData (set_volumeLevel js_NaN s)
     = (inr (replicate (length audioData) Byte.x00), set_volumeLevel js_NaN s).
Proof.
  split; [intros sgn|]; rewrite adjustVolume_spec, adjustVolume_at_spec; simpl volumeLevel.
  - replace (js_seq (S754_zero sgn) (num_of_Z 1)) with false by (destruct sgn; reflexivity).
    rewrite scale_pairs_silence; [reflexivity|].
    intros first last. left. apply sample_times_zero, int16_range.
  - change (js_seq js_NaN (num_of_Z 1)) with false. cbv iota.
    rewrite scale_pairs_silence; [reflexivity|].
    intros first last. right. apply sample_times_nan, int16_range.
Qed.

(** ** Whole samples are scaled independently *)

Lemma scale_pairs_app volume : forall (a b : Buffer.t),
  Nat.Even (length a) ->
  scale_pairs volume (a ++ b) = scale_pairs volume a ++ scale_pairs volume b.
Proof.
  fix IH 1. intros [|first [|last rest]] b Hev.
  - reflexivity.
  - destruct Hev as [n Hn]. simpl in Hn. lia.
  - simpl. rewrite IH; [reflexivity|].
    destruct Hev as [n Hn]. simpl in Hn. exists (n - 1)%nat. lia.
Qed.

(** X8: [adjustVolume] works sample by sample: for a buffer cut at a sample
    boundary, adjusting the whole gives the adjusted first part followed by
    the adjusted second part, so cutting audio into packets of whole samples
    does not change the result. *)
Theorem adjustVolume_of_concatenation (s : CallMediaQueue) (a b : Buffer.t) :
  Nat.Even (length a) ->
  exists out_a out_b,
    adjustVolume a s = (inr out_a, s)
    /\ adjustVolume b s = (inr out_b, s)
    /\ adjustVolume (a ++ b) s = (inr (out_a ++ out_b), s).
Proof.
  intros Hev. rewrite !adjustVolume_spec, !adjustVolume_at_spec.
  destruct (js_seq (volumeLevel s) (num_of_Z 1)).
  - exists a, b. repeat split.
  - exists (scale_pairs (volumeLevel s) a), (scale_pairs (volumeLevel s) b).
    rewrite scale_pairs_app by assumption. repeat split.
Qed.

(** ** The earlier version against the later one *)

(** ** Durations are never negative *)

Lemma binary_round_aux_not_negative m e l :
  0 <= m -> not_negative (binary_round_aux prec emax false m e l).
Proof.
  intros Hm.
  destruct (binary_round_aux_cases false m e l Hm) as [E|[E|(m' & e' & E & _)]];
    rewrite E; exact I.
Qed.

Lemma num_of_nat_not_negative n : not_negative (num_of_nat n).
Proof.
  unfold num_of_nat, num_of_Z, binary_normalize.
  destruct (Z.of_nat n) as [|p|p] eqn:E; [exact I| |lia].
  unfold binary_round.
  destruct (shl_align p 0 (fexp prec emax (Zpos (digits2_pos p) + 0))) as [mz ez].
  apply binary_round_aux_not_negative. lia.
Qed.

Lemma js_mul_not_negative x m e :
  not_negative x -> x <> S754_zero true -> not_negative (js_mul x (S754_finite false m e)).
Proof.
  unfold js_mul.
  destruct x as [[]|[]| |[] mx ex]; simpl; intros Hx Hz; try tauto.
  apply binary_round_aux_not_negative. lia.
Qed.

Lemma js_div_not_negative x m e :
  not_negative x -> x <> S754_zero true -> not_negative (js_div x (S754_finite false m e)).
Proof.
  unfold js_div.
  destruct x as [[]|[]| |[] mx ex]; simpl; intros Hx Hz; try tauto.
  unfold SFdiv_core_binary.
  set (m' := match _ with Z0 => _ | Zpos _ => _ | Zneg _ => _ end).
  assert (Hm' : 0 <= m').
  { unfold m'. destruct (_ - _ - _); try lia. apply Z.shiftl_nonneg. lia. }
  pose proof (Z_div_mod m' (Zpos m) ltac:(lia)) as Hdiv.
  destruct (Z.div_eucl m' (Zpos m)) as [q r].
  apply binary_round_aux_not_negative.
  destruct Hdiv as [Heq Hr]. nia.
Qed.

Lemma not_negative_no_minus_zero_mul x m e :
  not_negative x -> x <> S754_zero true -> js_mul x (S754_finite false m e) <> S754_zero true.
Proof.
  unfold js_mul.
  destruct x as [[]|[]| |[] mx ex]; simpl; intros Hx Hz; try tauto; try discriminate.
  destruct (binary_round_aux_cases false (Zpos (mx * m)) (ex + e) loc_Exact ltac:(lia))
    as [E|[E|(m' & e' & E & _)]]; rewrite E; discriminate.
Qed.

Lemma not_negative_no_minus_zero_div x m e :
  not_negative x -> x <> S754_zero true -> js_div x (S754_finite false m e) <> S754_zero true.
Proof.
  unfold js_div.
  destruct x as [[]|[]| |[] mx ex]; simpl; intros Hx Hz; try tauto; try discriminate.
  unfold SFdiv_core_binary.
  set (m' := match _ with Z0 => _ | Zpos _ => _ | Zneg _ => _ end).
  assert (Hm' : 0 <= m').
  { unfold m'. destruct (_ - _ - _); try lia. apply Z.shiftl_nonneg. lia. }
  pose proof (Z_div_mod m' (Zpos m) ltac:(lia)) as Hdiv.
  destruct (Z.div_eucl m' (Zpos m)) as [q r].
  assert (Hq : 0 <= q) by (destruct Hdiv as [Heq Hr]; nia).
  match goal with |- binary_round_aux _ _ _ ?q' ?e' ?l' <> _ =>
    destruct (binary_round_aux_cases false q' e' l' Hq)
      as [E|[E|(m'' & e'' & E & _)]]; rewrite E; discriminate end.
Qed.

Lemma num_of_nat_no_minus_zero n : num_of_nat n <> S754_zero true.
Proof.
  unfold num_of_nat, num_of_Z, binary_normalize.
  destruct (Z.of_nat n) as [|p|p] eqn:E; [discriminate| |lia].
  unfold binary_round.
  destruct (shl_align p 0 (fexp prec emax (Zpos (digits2_pos p) + 0))) as [mz ez].
  destruct (binary_round_aux_cases false (Zpos mz) ez loc_Exact ltac:(lia))
    as [E'|[E'|(m' & e' & E' & _)]]; rewrite E'; discriminate.
Qed.

(** The duration of a payload is a zero, a positive number or [+Infinity]:
    never NaN, never negative. *)
Lemma durationMs_not_negative n : not_negative (durationMs n).
Proof.
  unfold durationMs.
  change (js_mul channels bytesPerSample) with (S754_finite false 4503599627370496 (-51)).
  change sampleRate with (S754_finite false 8796093022208000 (-39)).
  change (num_of_Z 1000) with (S754_finite false 8796093022208000 (-43)).
  pose proof (num_of_nat_not_negative n) as H0.
  pose proof (num_of_nat_no_minus_zero n) as Z0.
  pose proof (js_div_not_negative _ 4503599627370496 (-51) H0 Z0) as H1.
  pose proof (not_negative_no_minus_zero_div _ 4503599627370496 (-51) H0 Z0) as Z1.
  pose proof (js_div_not_negative _ 8796093022208000 (-39) H1 Z1) as H2.
  pose proof (not_negative_no_minus_zero_div _ 8796093022208000 (-39) H1 Z1) as Z2.
  apply js_mul_not_negative; assumption.
Qed.

(** * The methods and their properties *)

Ltac run_monad :=
  unfold mbind, mret, M_bind, M_ret, bind, ret, gets, modify, throw, lift,
    try_catch, console_warn, console_error, setTimeout_sendNext in *.

Section Properties.
Context `{codec : Base64} `{ws : WebSocket}.

Lemma processNext_spec s :
  processNext s =
    (inr tt,
     if negb (isSending s) && (0 <? length (queue s))%nat
     then set_timers (timers s ++ [packetDuration s]) (set_isSending true s)
     else s).
Proof.
  unfold processNext. run_monad.
  destruct (negb (isSending s) && (0 <? length (queue s))%nat); reflexivity.
Qed.

(** [sendToTwilio] hands the message to the socket, and throws what
    [send] throws. *)
Lemma sendToTwilio_spec m s :
  sendToTwilio m s =
    (match send_throws (socket s) (wire_of (streamSid s) m) with
     | Some error => inl error
     | None => inr tt
     end,
     set_socket (socket s ++ [wire_of (streamSid s) m]) s).
Proof.
  unfold sendToTwilio, socket_send, wire_of. run_monad.
  destruct (send_throws _ _); reflexivity.
Qed.

Lemma sendNext_empty s :
  queue s = [] ->
  sendNext s = (inr tt, set_packetDuration (num_of_Z 0) (set_isSending false s)).
Proof. intros Hq. unfold sendNext. run_monad. rewrite Hq. reflexivity. Qed.

(** With a message at the front [sendNext] never throws: the message leaves
    the queue, the duration is updated and the message is handed to the
    socket.  If [send] returns, the next timer is set if messages remain; if
    it throws, the error is logged and nothing else is done: [isSending]
    stays as it was and no timer is set. *)
Lemma sendNext_cons s m rest :
  queue s = m :: rest ->
  sendNext s =
    match send_throws (socket s) (wire_of (streamSid s) m) with
    | None => processNext (set_isSending false (handed m rest s))
    | Some error =>
        (inr tt,
         set_console (console s ++ [send_failed_line error]) (handed m rest s))
    end.
Proof.
  intros Hq. unfold sendNext. run_monad. rewrite Hq.
  unfold handed, with_duration, send_failed_line.
  destruct (truthy_payload m) as [p|]; cbn -[processNext sendToTwilio];
    rewrite sendToTwilio_spec; cbn -[processNext];
    destruct (send_throws _ _) as [error|]; try reflexivity;
    destruct (processNext _) as [[e|[]] s'] eqn:E; try reflexivity;
    rewrite processNext_spec in E; discriminate.
Qed.

(** [enqueue] never throws: it warns and drops at the limit, and otherwise
    pushes the stored form of the message and wakes the pacer. *)
Lemma enqueue_spec m s :
  enqueue m s =
    if js_ge (num_of_nat (length (queue s))) (bufferLimit s)
    then (inr tt,
          set_console (console s ++ [console_warn_line
            "Buffer limit reached. Incoming packet dropped."]) s)
    else processNext (set_queue (queue s ++ [stored_form (volumeLevel s) m]) s).
Proof.
  unfold enqueue. run_monad.
  destruct (js_ge (num_of_nat (length (queue s))) (bufferLimit s)); [reflexivity|].
  unfold stored_form.
  destruct (media m) as [md|]; [|reflexivity].
  destruct (js_seq (volumeLevel s) (num_of_Z 1)) eqn:Hv; [|reflexivity].
  rewrite adjustVolume_spec, adjustVolume_at_spec, Hv. reflexivity.
Qed.

(** ** Frames: what each method leaves alone *)

Lemma processNext_frame s :
  queue (snd (processNext s)) = queue s
  /\ socket (snd (processNext s)) = socket s
  /\ packetDuration (snd (processNext s)) = packetDuration s
  /\ volumeLevel (snd (processNext s)) = volumeLevel s
  /\ bufferLimit (snd (processNext s)) = bufferLimit s
  /\ emitted (snd (processNext s)) = emitted s.
Proof.
  rewrite processNext_spec. simpl snd.
  destruct (negb (isSending s) && (0 <? length (queue s))%nat); repeat split.
Qed.

Lemma setVolume_cases v s :
  setVolume v s = (inl invalid_volume, s)
  \/ exists g, v = VNumber g
       /\ setVolume v s =
            (inr tt, set_volumeLevel (Math_max (num_of_Z 0) (Math_min (num_of_Z 1) g)) s).
Proof.
  unfold setVolume. run_monad.
  destruct v as [| | |g| | |]; cbn [typeof_number]; try (left; reflexivity).
  destruct (js_lt g (num_of_Z 0) || js_gt g (num_of_Z 1)); [left; reflexivity|].
  right. exists g. split; reflexivity.
Qed.


(** The handler never throws and only ever appends to the emitted marks and
    to the console. *)
Lemma on_message_frame parsed s :
  fst (on_message parsed s) = inr tt
  /\ queue (snd (on_message parsed s)) = queue s
  /\ socket (snd (on_message parsed s)) = socket s
  /\ timers (snd (on_message parsed s)) = timers s
  /\ isSending (snd (on_message parsed s)) = isSending s
  /\ packetDuration (snd (on_message parsed s)) = packetDuration s
  /\ volumeLevel (snd (on_message parsed s)) = volumeLevel s
  /\ bufferLimit (snd (on_message parsed s)) = bufferLimit s.
Proof.
  unfold on_message, get_prop, emit_mark. run_monad.
  destruct parsed as [e|data]; [repeat split|].
  destruct data as [| | | | | |fields]; try (repeat split; fail).
  destruct (get_field "event" fields) as [| | | |tag| |]; try (repeat split; fail).
  destruct (String.eqb tag "mark"); [|repeat split].
  destruct (get_field "mark" fields) as [| | | | | |fs]; repeat split.
Qed.

(** C5 (as amended): [clear()] hands exactly one [clear] message to the
    socket, at once and without putting it in the queue, whatever timers are
    pending.  When [send] takes the message, [clear()] returns and the queue
    is empty; pending timers, the sending flag and the packet duration are
    left as they are, and a timer that fires afterwards finds the queue
    empty and sends nothing.  When [send] throws, [clear()] throws the same
    exception and the queue, like everything else of the object, is left as
    it was. *)
Theorem clear_sends_one_and_empties (s : CallMediaQueue) :
  socket (step call_clear s) = socket s ++ [clear_wire (streamSid s)]
  /\ match send_throws (socket s) (clear_wire (streamSid s)) with
     | None =>
         exists s',
           clear s = (inr tt, s')
           /\ socket s' = socket s ++ [clear_wire (streamSid s)]
           /\ queue s' = []
           /\ timers s' = timers s
           /\ isSending s' = isSending s
           /\ packetDuration s' = packetDuration s
           /\ socket (step timer s') = socket s'
           /\ queue (step timer s') = []
     | Some error =>
         clear s
         = (inl error, set_socket (socket s ++ [clear_wire (streamSid s)]) s)
     end.
Proof.
  unfold step, run, clear, clearQueue. run_monad.
  rewrite sendToTwilio_spec.
  change (wire_of (streamSid s) {| event := ev_clear; media := None; mark := None |})
    with (clear_wire (streamSid s)).
  destruct (send_throws (socket s) (clear_wire (streamSid s))) as [error|];
    (split; [reflexivity|]); [reflexivity|].
  eexists. split; [reflexivity|]. cbn.
  repeat split; unfold timer_fires; run_monad; cbn;
    destruct (timers s); reflexivity.
Qed.

(** C10: [setVolume] does not touch the queue, whatever its argument and
    whether it throws or not; and [sendNext] hands the front message to the
    socket with the very [media] field it was queued with, so a payload
    queued before a change of volume goes out as it was admitted. *)
Theorem queued_payloads_unchanged_by_setVolume
    (v : value) (s : CallMediaQueue) (m : SocketMessage) (rest : list SocketMessage) :
  queue s = m :: rest ->
  let s1 := step (call_setVolume v) s in
  let s2 := snd (sendNext s1) in
  queue s1 = m :: rest
  /\ socket s1 = socket s
  /\ socket s2 = socket s ++ [wire_of (streamSid s) m]
  /\ w_media (wire_of (streamSid s) m) = media m
  /\ queue s2 = rest.
Proof.
  intros Hq s1 s2.
  assert (Hs1 : queue s1 = queue s /\ socket s1 = socket s /\ streamSid s1 = streamSid s).
  { unfold s1, step, run.
    destruct (setVolume_cases v s) as [->|(g & -> & ->)]; repeat split. }
  destruct Hs1 as (Hq1 & Hk1 & Hsid).
  rewrite Hq in Hq1. split; [exact Hq1|]. split; [exact Hk1|].
  unfold s2. rewrite (sendNext_cons s1 m rest Hq1).
  assert (Hh : socket (handed m rest s1) = socket s ++ [wire_of (streamSid s) m]
               /\ queue (handed m rest s1) = rest).
  { unfold handed, with_duration.
    destruct (truthy_payload m); simpl; rewrite Hk1, Hsid; split; reflexivity. }
  destruct Hh as (Hsock & Hrest).
  destruct (send_throws (socket s1) (wire_of (streamSid s1) m)) as [error|].
  - cbn [snd]. split; [exact Hsock|]. split; [reflexivity|exact Hrest].
  - destruct (processNext_frame (set_isSending false (handed m rest s1)))
      as (Fq & Fs & _).
    rewrite Fq, Fs. split; [exact Hsock|]. split; [reflexivity|exact Hrest].
Qed.

Lemma enqueue_frame m s :
  packetDuration (snd (enqueue m s)) = packetDuration s
  /\ volumeLevel (snd (enqueue m s)) = volumeLevel s
  /\ bufferLimit (snd (enqueue m s)) = bufferLimit s
  /\ socket (snd (enqueue m s)) = socket s
  /\ emitted (snd (enqueue m s)) = emitted s.
Proof.
  rewrite enqueue_spec.
  destruct (js_ge (num_of_nat (length (queue s))) (bufferLimit s)); [repeat split|].
  destruct (processNext_frame
              (set_queue (queue s ++ [stored_form (volumeLevel s) m]) s))
    as (_ & -> & -> & -> & -> & ->).
  repeat split.
Qed.

Lemma sendNext_duration s :
  packetDuration (snd (sendNext s)) =
    match queue s with
    | [] => num_of_Z 0
    | m :: _ =>
        match truthy_payload m with
        | Some p => durationMs (length (base64_decode p))
        | None => packetDuration s
        end
    end.
Proof.
  destruct (queue s) as [|m rest] eqn:Hq.
  - rewrite (sendNext_empty s Hq). reflexivity.
  - rewrite (sendNext_cons s m rest Hq).
    destruct (send_throws _ _) as [error|].
    + unfold handed, with_duration. destruct (truthy_payload m); reflexivity.
    + match goal with |- packetDuration (snd (processNext ?t)) = _ =>
        destruct (processNext_frame t) as (_ & _ & -> & _) end.
      unfold handed, with_duration. destruct (truthy_payload m); reflexivity.
Qed.

(** [clear()] as an equation: the queue is emptied after [send] returned. *)
Lemma clear_spec s :
  clear s =
    match send_throws (socket s) (clear_wire (streamSid s)) with
    | None =>
        (inr tt, set_queue [] (set_socket (socket s ++ [clear_wire (streamSid s)]) s))
    | Some error =>
        (inl error, set_socket (socket s ++ [clear_wire (streamSid s)]) s)
    end.
Proof.
  unfold clear, clearQueue. run_monad. rewrite sendToTwilio_spec.
  change (wire_of (streamSid s) {| event := ev_clear; media := None; mark := None |})
    with (clear_wire (streamSid s)).
  destruct (send_throws _ _); reflexivity.
Qed.

(** [clear()] touches the socket and, when [send] returns, the queue. *)
Lemma clear_frame s :
  packetDuration (snd (clear s)) = packetDuration s
  /\ volumeLevel (snd (clear s)) = volumeLevel s
  /\ bufferLimit (snd (clear s)) = bufferLimit s
  /\ timers (snd (clear s)) = timers s
  /\ isSending (snd (clear s)) = isSending s
  /\ streamSid (snd (clear s)) = streamSid s
  /\ emitted (snd (clear s)) = emitted s
  /\ console (snd (clear s)) = console s
  /\ socket (snd (clear s)) = socket s ++ [clear_wire (streamSid s)]
  /\ (queue (snd (clear s)) = [] \/ queue (snd (clear s)) = queue s).
Proof.
  unfold clear, clearQueue. run_monad. rewrite sendToTwilio_spec.
  destruct (send_throws _ _); cbn; repeat split; auto.
Qed.



(** C4, as amended: when a media message whose payload is not the empty
    string is drained, the packet duration becomes
    [(payloadByteLength / (channels * bytesPerSample)) / sampleRate * 1000]
    in JavaScript arithmetic, with [channels = 1], [bytesPerSample = 2],
    [sampleRate = 16000] and [payloadByteLength] the length of the decoded
    payload (not of the base64 text); a payload that is the empty string
    leaves the duration as it was; and 16000 bytes give exactly 500. *)
Theorem drained_media_sets_duration
    (s : CallMediaQueue) (p : string) (rest : list SocketMessage) :
  queue s = media_message p :: rest ->
  packetDuration (snd (sendNext s)) =
    (if String.eqb p "" then packetDuration s
     else durationMs (length (base64_decode p)))
  /\ durationMs (length (base64_decode p)) =
       js_mul (js_div (js_div (num_of_nat (length (base64_decode p)))
                              (js_mul (num_of_Z 1) (num_of_Z 2)))
                      (num_of_Z 16000))
              (num_of_Z 1000)
  /\ durationMs (Z.to_nat 16000) = num_of_Z 500.
Proof.
  intros Hq. split; [|split].
  - rewrite sendNext_duration, Hq. unfold truthy_payload, media_message. simpl.
    destruct (String.eqb p ""); reflexivity.
  - reflexivity.
  - vm_compute. reflexivity.
Qed.

(** C9: the parsed message [{"event":"mark","mark":{"name":N}}] makes the
    handler emit ['mark'] with [N] once and nothing else; a parsed value
    other than [null] whose [event] is not the string ["mark"] changes
    nothing and logs nothing; and no message at all makes the handler throw
    or touch the queue, the socket, the timers or the settings. *)
Theorem inbound_mark_echo :
  (forall N s,
      on_message (inr (mark_echo N)) s
      = (inr tt, set_emitted (emitted s ++ [VString N]) s))
  /\ (forall data s,
        data <> VNull -> data <> VUndefined ->
        (forall fields, data = VObject fields ->
                        get_field "event" fields <> VString "mark") ->
        on_message (inr data) s = (inr tt, s))
  /\ (forall parsed s,
        fst (on_message parsed s) = inr tt
        /\ queue (snd (on_message parsed s)) = queue s
        /\ socket (snd (on_message parsed s)) = socket s
        /\ timers (snd (on_message parsed s)) = timers s
        /\ isSending (snd (on_message parsed s)) = isSending s
        /\ packetDuration (snd (on_message parsed s)) = packetDuration s
        /\ volumeLevel (snd (on_message parsed s)) = volumeLevel s
        /\ bufferLimit (snd (on_message parsed s)) = bufferLimit s).
Proof.
  split; [|split].
  - intros N s. reflexivity.
  - intros data s Hnull Hundef Hev.
    unfold on_message, get_prop. run_monad.
    destruct data as [| | | | | |fields]; try congruence; try reflexivity.
    specialize (Hev fields eq_refl).
    destruct (get_field "event" fields) as [| | | |tag| |]; try reflexivity.
    destruct (String.eqb_spec tag "mark") as [->|Hne]; [congruence|reflexivity].
  - intros parsed s. apply on_message_frame.
Qed.

(** When the volume level is not 1, [enqueue] pushes the message as it
    came: no gain is applied on the way into the queue. *)
Lemma stored_form_other_volume volume m :
  js_seq volume (num_of_Z 1) = false -> stored_form volume m = m.
Proof.
  intros Hv. unfold stored_form. rewrite Hv. destruct (media m); reflexivity.
Qed.

Lemma media_admitted_as_submitted (s : CallMediaQueue) (p : string) :
  js_seq (volumeLevel s) (num_of_Z 1) = false ->
  js_ge (num_of_nat (length (queue s))) (bufferLimit s) = false ->
  queue (step (call_media p) s) = queue s ++ [media_message p].
Proof.
  intros Hv Hfull. unfold step, run, media_. rewrite enqueue_spec, Hfull.
  match goal with |- queue (snd (processNext ?t)) = _ =>
    destruct (processNext_frame t) as (-> & _) end.
  rewrite stored_form_other_volume by assumption. reflexivity.
Qed.

(** [setVolume] refuses what is not a number, what is below 0 and what is
    above 1 (the infinities included), and leaves the object as it was. *)
Lemma setVolume_rejects v s :
  typeof_number v = None
  \/ (exists g, v = VNumber g /\ (js_lt g (num_of_Z 0) = true \/ js_gt g (num_of_Z 1) = true)) ->
  setVolume v s = (inl invalid_volume, s).
Proof.
  unfold setVolume. run_monad. intros [Hv|(g & -> & Hg)].
  - rewrite Hv. reflexivity.
  - cbn [typeof_number].
    replace (js_lt g (num_of_Z 0) || js_gt g (num_of_Z 1)) with true; [reflexivity|].
    destruct Hg as [-> | ->]; [reflexivity|]. symmetry. apply orb_true_r.
Qed.

Lemma Math_min_one g :
  Math_min (num_of_Z 1) g =
    match js_compare (num_of_Z 1) g with
    | None => js_NaN
    | Some Gt => g
    | Some _ => num_of_Z 1
    end.
Proof. unfold Math_min. destruct (js_compare (num_of_Z 1) g) as [[]|]; reflexivity. Qed.

Lemma Math_max_zero r :
  Math_max (num_of_Z 0) r =
    match js_compare (num_of_Z 0) r with
    | None => js_NaN
    | Some Lt => r
    | Some _ => num_of_Z 0
    end.
Proof. unfold Math_max. destruct (js_compare (num_of_Z 0) r) as [[]|]; reflexivity. Qed.

(** For a number between 0 and 1, [setVolume] stores a number that is
    [===] to it (it is the number itself, or [+0] for [-0]). *)
Lemma setVolume_stores g s :
  js_le (num_of_Z 0) g = true -> js_le g (num_of_Z 1) = true ->
  exists stored,
    setVolume (VNumber g) s = (inr tt, set_volumeLevel stored s)
    /\ js_seq stored g = true
    /\ (stored = g \/ stored = num_of_Z 0 \/ stored = num_of_Z 1).
Proof.
  intros H0 H1.
  destruct (unit_interval_finite g H0 H1) as [Hnan _].
  unfold setVolume. run_monad. cbn [typeof_number].
  rewrite Math_min_one.
  unfold js_le in H0, H1. unfold js_lt, js_gt.
  rewrite (js_compare_antisym g (num_of_Z 1)).
  rewrite (js_compare_antisym (num_of_Z 0) g).
  destruct (js_compare g (num_of_Z 1)) as [[]|] eqn:C1; try discriminate;
    destruct (js_compare (num_of_Z 0) g) as [[]|] eqn:C0; try discriminate;
    cbn [option_map CompOpp orb]; rewrite Math_max_zero.
  - (* g === 1 *)
    exists (num_of_Z 1). split; [reflexivity|]. split; [|right; right; reflexivity].
    rewrite js_seq_sym. unfold js_seq. rewrite C1. reflexivity.
  - exists (num_of_Z 1). split; [reflexivity|]. split; [|right; right; reflexivity].
    rewrite js_seq_sym. unfold js_seq. rewrite C1. reflexivity.
  - (* 0 === g *)
    rewrite C0. exists (num_of_Z 0). split; [reflexivity|]. split; [|right; left; reflexivity].
    unfold js_seq. rewrite C0. reflexivity.
  - rewrite C0. exists g. split; [reflexivity|]. split; [|left; reflexivity].
    unfold js_seq. rewrite js_compare_refl by assumption. reflexivity.
Qed.

(** For a value of the format between 0 and 1 other than [-0], the stored
    volume level is that very number. *)
Lemma setVolume_stores_exact g s :
  valid_binary prec emax g = true -> g <> S754_zero true ->
  js_le (num_of_Z 0) g = true -> js_le g (num_of_Z 1) = true ->
  setVolume (VNumber g) s = (inr tt, set_volumeLevel g s).
Proof.
  intros Vg Hz H0 H1.
  destruct (setVolume_stores g s H0 H1) as (stored & -> & Hseq & Hcases).
  do 2 f_equal.
  destruct Hcases as [->|[->| ->]]; [reflexivity| |].
  - destruct (js_seq_valid_eq (num_of_Z 0) g eq_refl Vg Hseq)
      as [<-|(sx & sy & _ & ->)]; [reflexivity|].
    destruct sy; [congruence|reflexivity].
  - destruct (js_seq_valid_eq (num_of_Z 1) g eq_refl Vg Hseq)
      as [<-|(sx & sy & Hone & _)]; [reflexivity|discriminate].
Qed.

(** C2, where the code departs from it: [NaN] passes the check of
    [setVolume] (it is a number, and neither [NaN < 0] nor [NaN > 1] holds),
    nothing is thrown, and the stored volume level becomes [NaN]. *)
Theorem setVolume_accepts_NaN (s : CallMediaQueue) :
  setVolume (VNumber js_NaN) s = (inr tt, set_volumeLevel js_NaN s)
  /\ volumeLevel (step (call_setVolume (VNumber js_NaN)) s) = js_NaN.
Proof. split; reflexivity. Qed.

Lemma enqueue_queue n s m :
  Z.of_nat n < 2 ^ 53 -> bufferLimit s = num_of_nat n ->
  (length (queue s) <= n)%nat ->
  queue (snd (enqueue m s)) =
    if (length (queue s) <? n)%nat then queue s ++ [stored_form (volumeLevel s) m]
    else queue s.
Proof.
  intros Hn Hl Hlen. rewrite enqueue_spec, Hl, js_ge_nat by lia.
  destruct (Nat.leb_spec n (length (queue s))) as [Hfull|Hfree];
    destruct (Nat.ltb_spec (length (queue s)) n); try lia.
  - reflexivity.
  - match goal with |- queue (snd (processNext ?t)) = _ =>
      destruct (processNext_frame t) as (-> & _) end.
    reflexivity.
Qed.

Lemma offer_all_queue n : Z.of_nat n < 2 ^ 53 ->
  forall items s,
  bufferLimit s = num_of_nat n -> (length (queue s) <= n)%nat ->
  queue (offer_all items s) = take n (queue s ++ (stored_form (volumeLevel s) <$> items)).
Proof.
  intros Hn. induction items as [|m items IH]; intros s Hl Hlen.
  - simpl. rewrite app_nil_r. symmetry. apply take_ge. lia.
  - simpl offer_all. fold (offer_all items (snd (enqueue m s))).
    destruct (enqueue_frame m s) as (_ & Hv & Hb & _).
    pose proof (enqueue_queue n s m Hn Hl Hlen) as Hq.
    rewrite IH; rewrite ?Hb, ?Hv, ?Hq; try assumption.
    + destruct (Nat.ltb_spec (length (queue s)) n) as [Hlt|Hge].
      * rewrite <- app_assoc. reflexivity.
      * rewrite !take_app_le by lia. reflexivity.
    + destruct (Nat.ltb_spec (length (queue s)) n) as [Hlt|Hge].
      * rewrite length_app. simpl. lia.
      * lia.
Qed.

Lemma step_keeps_bound n a s :
  Z.of_nat n < 2 ^ 53 -> keeps_limit a ->
  bufferLimit s = num_of_nat n -> (length (queue s) <= n)%nat ->
  bufferLimit (step a s) = num_of_nat n /\ (length (queue (step a s)) <= n)%nat.
Proof.
  intros Hn Ha Hl Hlen. unfold step.
  assert (Henq : forall m, bufferLimit (snd (enqueue m s)) = num_of_nat n
                           /\ (length (queue (snd (enqueue m s))) <= n)%nat).
  { intros m. destruct (enqueue_frame m s) as (_ & _ & -> & _). split; [assumption|].
    rewrite (enqueue_queue n s m Hn Hl Hlen).
    destruct (Nat.ltb_spec (length (queue s)) n); [|lia].
    rewrite length_app. simpl. lia. }
  destruct a as [p|nm| |v|l| |parsed|e]; simpl run.
  - apply Henq.
  - apply Henq.
  - destruct (clear_frame s) as (_ & _ & -> & _ & _ & _ & _ & _ & _ & [-> | ->]);
      split; try assumption. simpl. lia.
  - destruct (setVolume_cases v s) as [->|(g & -> & ->)]; split; assumption.
  - destruct Ha.
  - unfold timer_fires. run_monad.
    destruct (timers s) as [|d ts]; [split; assumption|].
    set (s1 := set_timers ts s).
    destruct (queue s1) as [|m rest] eqn:Hq.
    + rewrite (sendNext_empty s1 Hq). simpl. split; assumption.
    + rewrite (sendNext_cons s1 m rest Hq).
      change (queue s = m :: rest) in Hq. rewrite Hq in Hlen. simpl in Hlen.
      destruct (send_throws _ _) as [error|].
      * unfold handed, with_duration.
        destruct (truthy_payload m); simpl; split; try assumption; lia.
      * match goal with |- bufferLimit (snd (processNext ?t)) = _ /\ _ =>
          destruct (processNext_frame t) as (-> & _ & _ & _ & -> & _) end.
        unfold handed, with_duration.
        destruct (truthy_payload m); simpl; split; try assumption; lia.
  - destruct (on_message_frame parsed s) as (_ & -> & _ & _ & _ & _ & _ & ->).
    split; assumption.
  - split; assumption.
Qed.

Lemma steps_keep_bound n : Z.of_nat n < 2 ^ 53 ->
  forall actions s,
  Forall keeps_limit actions ->
  bufferLimit s = num_of_nat n -> (length (queue s) <= n)%nat ->
  (length (queue (steps actions s)) <= n)%nat.
Proof.
  intros Hn. induction actions as [|a actions IH]; intros s Hall Hl Hlen.
  - exact Hlen.
  - inversion Hall as [|? ? Ha Hrest]; subst.
    destruct (step_keeps_bound n a s Hn Ha Hl Hlen) as [Hl' Hlen'].
    simpl. apply IH; assumption.
Qed.

(** C3: with a capacity [n] (an integer a number holds exactly), an offer
    made while the queue holds fewer than [n] messages appends its message
    at the back; an offer made while it holds [n] is dropped and the queue
    stays as it is, oldest message included; so offering any list of
    messages to an empty queue keeps the first [n] of them, in order; and
    whatever the calls, timers and inbound messages (the limit itself not
    being changed), the queue never holds more than [n]. *)
Theorem queue_bounded_drop_newest (n : nat) :
  Z.of_nat n < 2 ^ 53 ->
  (forall s m, bufferLimit s = num_of_nat n -> (length (queue s) < n)%nat ->
      queue (snd (enqueue m s)) = queue s ++ [stored_form (volumeLevel s) m])
  /\ (forall s m, bufferLimit s = num_of_nat n -> length (queue s) = n ->
      fst (enqueue m s) = inr tt /\ queue (snd (enqueue m s)) = queue s)
  /\ (forall s items, bufferLimit s = num_of_nat n -> queue s = [] ->
      queue (offer_all items s) = take n (stored_form (volumeLevel s) <$> items)
      /\ (length (queue (offer_all items s)) <= n)%nat)
  /\ (forall s actions, bufferLimit s = num_of_nat n -> (length (queue s) <= n)%nat ->
      Forall keeps_limit actions ->
      (length (queue (steps actions s)) <= n)%nat).
Proof.
  intros Hn. split; [|split; [|split]].
  - intros s m Hl Hlen. rewrite (enqueue_queue n s m Hn Hl) by lia.
    destruct (Nat.ltb_spec (length (queue s)) n); [reflexivity|lia].
  - intros s m Hl Hlen. split.
    + rewrite enqueue_spec, Hl, js_ge_nat by lia.
      destruct (Nat.leb_spec n (length (queue s))); [reflexivity|lia].
    + rewrite (enqueue_queue n s m Hn Hl) by lia.
      destruct (Nat.ltb_spec (length (queue s)) n); [lia|reflexivity].
  - intros s items Hl Hq.
    rewrite (offer_all_queue n Hn items s Hl) by (rewrite Hq; simpl; lia).
    rewrite Hq. simpl. split; [reflexivity|].
    rewrite length_take. lia.
  - intros s actions Hl Hlen Hall. apply (steps_keep_bound n Hn); assumption.
Qed.

Lemma clamp_floor_real x : is_real x -> clamp_floor x = Some (clamp16 (Zfloor x)).
Proof. destruct x; simpl; intros Hx; try reflexivity; destruct Hx. Qed.

Lemma readInt16LE_range (buf : Buffer.t) i sample :
  Buffer.readInt16LE buf i = inr sample -> -32768 <= sample <= 32767.
Proof.
  unfold Buffer.readInt16LE.
  destruct (buf !! i) as [first|]; [|discriminate].
  destruct (buf !! (i + 1)%nat) as [last|]; [|discriminate].
  intros Hr. injection Hr as <-. apply int16_range.
Qed.

(** C7: at a volume level between 0 and 1 other than 1, [adjustVolume]
    returns a buffer in which the sample at every even offset is
    [clamp(floor(sample * volume), -32768, 32767)] of the input sample at
    that offset; the product is the JavaScript one, a zero or a finite
    number, and the sample read back lies within the 16-bit range, so
    nothing wrapped around.  Only whole 2-byte samples are processed: a last
    odd byte is not read, and its place in the output, never written, keeps
    the zero of the fresh buffer. *)
Theorem adjustVolume_scales_and_clamps (s : CallMediaQueue) (audioData : Buffer.t) :
  js_le (num_of_Z 0) (volumeLevel s) = true ->
  js_le (volumeLevel s) (num_of_Z 1) = true ->
  js_seq (volumeLevel s) (num_of_Z 1) = false ->
  exists out,
    adjustVolume audioData s = (inr out, s)
    /\ length out = length audioData
    /\ (forall k sample,
          Buffer.readInt16LE audioData (2 * k) = inr sample ->
          let product := js_mul (num_of_Z sample) (volumeLevel s) in
          is_real product
          /\ Buffer.readInt16LE out (2 * k) = inr (clamp16 (Zfloor product))
          /\ -32768 <= clamp16 (Zfloor product) <= 32767)
    /\ (forall x, Nat.Even (length audioData) ->
          adjustVolume (audioData ++ [x]) s = (inr (out ++ [Byte.x00]), s)).
Proof.
  intros H0 H1 Hne.
  exists (scale_pairs (volumeLevel s) audioData).
  split; [|split; [|split]].
  - rewrite adjustVolume_spec, adjustVolume_at_spec, Hne. reflexivity.
  - apply length_scale_pairs.
  - intros k sample Hread product.
    assert (Hreal : is_real product).
    { apply sample_times_gain_real; try assumption.
      apply (readInt16LE_range audioData (2 * k)). exact Hread. }
    destruct (scale_pairs_sample (volumeLevel s) H0 H1 k audioData sample Hread)
      as (z & Hz & Hr & Hb).
    fold product in Hz. rewrite (clamp_floor_real product Hreal) in Hz.
    injection Hz as <-. repeat split; try assumption; lia.
  - intros x Hev. rewrite adjustVolume_spec, adjustVolume_at_spec, Hne.
    rewrite scale_pairs_odd by assumption. reflexivity.
Qed.

(** C8: whatever the volume level, [adjustVolume] returns, without throwing
    and without touching the object, a buffer as long as its input; at
    volume level 1 it returns the input itself. *)
Theorem adjustVolume_length_and_identity (s : CallMediaQueue) (audioData : Buffer.t) :
  (exists out,
      adjustVolume audioData s = (inr out, s)
      /\ length out = length audioData
      /\ (js_seq (volumeLevel s) (num_of_Z 1) = true -> out = audioData))
  /\ adjustVolume audioData (set_volumeLevel (num_of_Z 1) s)
     = (inr audioData, set_volumeLevel (num_of_Z 1) s).
Proof.
  split.
  - rewrite adjustVolume_spec, adjustVolume_at_spec.
    destruct (js_seq (volumeLevel s) (num_of_Z 1)) eqn:Hv.
    + exists audioData. repeat split.
    + exists (scale_pairs (volumeLevel s) audioData). split; [reflexivity|].
      split; [apply length_scale_pairs|discriminate].
  - rewrite adjustVolume_spec, adjustVolume_at_spec. reflexivity.
Qed.

(** ** The pacer *)

Lemma setBufferLimit_cases l s :
  setBufferLimit l s = (inl invalid_limit, s)
  \/ exists n, l = VNumber n /\ js_lt n (num_of_Z 0) = false
       /\ setBufferLimit l s = (inr tt, set_bufferLimit n s).
Proof.
  unfold setBufferLimit. run_monad.
  destruct l as [| | |n| | |]; cbn [typeof_number]; try (left; reflexivity).
  destruct (js_lt n (num_of_Z 0)) eqn:Hn; [left; reflexivity|].
  right. exists n. repeat split. exact Hn.
Qed.

(** A timer event as an equation. *)
Lemma timer_step s :
  step timer s =
    match timers s with
    | [] => s
    | _ :: ts =>
        match queue s with
        | [] => set_packetDuration (num_of_Z 0) (set_isSending false (set_timers ts s))
        | m :: rest =>
            match send_throws (socket s) (wire_of (streamSid s) m) with
            | None =>
                snd (processNext (set_isSending false (handed m rest (set_timers ts s))))
            | Some error =>
                set_console (console s ++ [send_failed_line error])
                  (handed m rest (set_timers ts s))
            end
        end
    end.
Proof.
  unfold step, run, timer_fires. run_monad.
  destruct (timers s) as [|d ts]; [reflexivity|].
  destruct (queue s) as [|m rest] eqn:Hq.
  - rewrite (sendNext_empty (set_timers ts s) Hq). reflexivity.
  - rewrite (sendNext_cons (set_timers ts s) m rest Hq).
    change (socket (set_timers ts s)) with (socket s).
    change (streamSid (set_timers ts s)) with (streamSid s).
    change (console (set_timers ts s)) with (console s).
    destruct (send_throws _ _); reflexivity.
Qed.

Lemma with_duration_frame m s :
  queue (with_duration m s) = queue s
  /\ isSending (with_duration m s) = isSending s
  /\ timers (with_duration m s) = timers s
  /\ socket (with_duration m s) = socket s
  /\ streamSid (with_duration m s) = streamSid s
  /\ volumeLevel (with_duration m s) = volumeLevel s
  /\ bufferLimit (with_duration m s) = bufferLimit s
  /\ console (with_duration m s) = console s.
Proof. unfold with_duration. destruct (truthy_payload m); repeat split. Qed.

Lemma handed_frame m rest s :
  queue (handed m rest s) = rest
  /\ isSending (handed m rest s) = isSending s
  /\ timers (handed m rest s) = timers s
  /\ socket (handed m rest s) = socket s ++ [wire_of (streamSid s) m]
  /\ streamSid (handed m rest s) = streamSid s
  /\ volumeLevel (handed m rest s) = volumeLevel s
  /\ bufferLimit (handed m rest s) = bufferLimit s
  /\ console (handed m rest s) = console s.
Proof.
  unfold handed, with_duration. destruct (truthy_payload m); repeat split.
Qed.

(** One step keeps the pacer sending with one timer or idle, unless [send]
    throws in the timer callback, which stalls it. *)
Lemma step_pacer_ok a s :
  pacer_ok s ->
  pacer_ok (step a s)
  \/ (stalled (step a s)
      /\ exists m error, send_throws (socket s) (wire_of (streamSid s) m) = Some error).
Proof.
  intros Hok.
  assert (Henq : forall m, pacer_ok (snd (enqueue m s))).
  { intros m. rewrite enqueue_spec.
    destruct (js_ge (num_of_nat (length (queue s))) (bufferLimit s)); [exact Hok|].
    rewrite processNext_spec. simpl snd.
    destruct Hok as [(Hs & d & Ht)|(Hs & Ht & Hq)].
    - simpl. rewrite Hs. simpl. left. simpl. eauto.
    - simpl. rewrite Hs, Hq. simpl. left. simpl. rewrite Ht. eauto. }
  destruct a as [p|nm| |v|l| |parsed|e].
  - left. apply Henq.
  - left. apply Henq.
  - left. unfold step, run, pacer_ok.
    destruct (clear_frame s) as (_ & _ & _ & -> & -> & _ & _ & _ & _ & Hq).
    destruct Hok as [(Hs & d & Ht)|(Hs & Ht & Hq')]; [left; eauto|right].
    repeat split; try assumption. destruct Hq as [Hq|Hq]; congruence.
  - left. unfold step, run.
    destruct (setVolume_cases v s) as [->|(g & -> & ->)]; exact Hok.
  - left. unfold step, run.
    destruct (setBufferLimit_cases l s) as [->|(n & -> & _ & ->)]; exact Hok.
  - rewrite timer_step.
    destruct Hok as [(Hs & d & Ht)|(Hs & Ht & Hq)]; rewrite Ht; [|left; right; auto].
    destruct (queue s) as [|m rest] eqn:Hq.
    + left. right. simpl. auto.
    + destruct (handed_frame m rest (set_timers [] s)) as (Fq & Fi & Ft & _).
      destruct (send_throws (socket s) (wire_of (streamSid s) m)) as [error|] eqn:Hsend.
      * right. split; [|eauto].
        split; [exact (eq_trans Fi Hs)|exact Ft].
      * left. remember (handed m rest (set_timers [] s)) as h eqn:Hh.
        rewrite processNext_spec. cbn [snd].
        simpl isSending. simpl queue. rewrite Fq. simpl negb.
        destruct rest as [|m' rest']; simpl.
        -- right. simpl. rewrite Fq, Ft. auto.
        -- left. simpl. rewrite Ft. simpl. eauto.
  - left. unfold step, run.
    destruct (on_message_frame parsed s) as (_ & Fq & _ & Ft & Fs & _).
    unfold pacer_ok. rewrite Fq, Ft, Fs. exact Hok.
  - left. exact Hok.
Qed.

(** A stalled pacer stays stalled: [processNext] does nothing while
    [isSending] is set, and only a timer callback clears it.  From then on
    nothing but [clear()] hands a message to the socket. *)
Lemma step_stalled a s :
  stalled s ->
  stalled (step a s) /\ (a <> call_clear -> socket (step a s) = socket s).
Proof.
  intros (Hs & Ht).
  assert (Henq : forall m, stalled (snd (enqueue m s))
                           /\ socket (snd (enqueue m s)) = socket s).
  { intros m. rewrite enqueue_spec.
    destruct (js_ge (num_of_nat (length (queue s))) (bufferLimit s));
      [repeat split; assumption|].
    rewrite processNext_spec. simpl snd. simpl isSending. rewrite Hs. simpl.
    repeat split; assumption. }
  destruct a as [p|nm| |v|l| |parsed|e].
  - destruct (Henq (media_message p)) as (Hst & Hsock). split; [exact Hst|]. intros _. exact Hsock.
  - unfold step, run, mark_. destruct (Henq {| event := ev_mark; media := None;
                                               mark := Some {| name := nm |} |})
      as (Hst & Hsock). split; [exact Hst|]. intros _. exact Hsock.
  - split; [|congruence]. unfold step, run, stalled.
    destruct (clear_frame s) as (_ & _ & _ & -> & -> & _). split; assumption.
  - unfold step, run.
    destruct (setVolume_cases v s) as [->|(g & -> & ->)]; repeat split; assumption.
  - unfold step, run.
    destruct (setBufferLimit_cases l s) as [->|(n & -> & _ & ->)];
      repeat split; assumption.
  - rewrite timer_step, Ht. repeat split; assumption.
  - unfold step, run, stalled.
    destruct (on_message_frame parsed s) as (_ & _ & -> & -> & -> & _).
    repeat split; assumption.
  - repeat split; assumption.
Qed.

Lemma steps_stalled more : forall s,
  stalled s ->
  stalled (steps more s)
  /\ (Forall (fun a => a <> call_clear) more -> socket (steps more s) = socket s).
Proof.
  induction more as [|a more IH]; intros s Hst; [split; auto|].
  simpl. destruct (step_stalled a s Hst) as (Hst' & Hsock).
  destruct (IH (step a s) Hst') as (Hfin & Hsock').
  split; [exact Hfin|]. intros Hall. inversion Hall as [|? ? Ha Hmore]; subst.
  rewrite (Hsock' Hmore). apply Hsock. exact Ha.
Qed.

(** X1: on every socket, whatever is called on an object and whatever
    timers and messages arrive, from its construction on the pacer is
    sending with exactly one timer pending, or idle with no timer pending and
    an empty queue, or stalled: counted as sending with no timer pending.
    So two drains never run at once.  With a socket whose [send] never
    throws the pacer never stalls, and a queued message always has a timer
    that will send it.  A stalled pacer stays stalled whatever happens next,
    and from then on nothing but [clear()] hands a message to the socket:
    what is queued is never sent. *)
Theorem pacer_invariant (sid : string) (actions : list Action) :
  let s := steps actions (constructor sid) in
  (pacer_ok s \/ stalled s)
  /\ (reliable -> pacer_ok s)
  /\ (stalled s ->
      forall more,
        stalled (steps more s)
        /\ (Forall (fun a => a <> call_clear) more ->
            socket (steps more s) = socket s)).
Proof.
  assert (Hgen : forall l s, pacer_ok s \/ stalled s ->
                             pacer_ok (steps l s) \/ stalled (steps l s)).
  { induction l as [|a l IH]; intros s Hs; [exact Hs|].
    simpl. apply IH. destruct Hs as [Hok|Hst].
    - destruct (step_pacer_ok a s Hok) as [Hok'|(Hst' & _)]; auto.
    - right. apply step_stalled. exact Hst. }
  assert (Hrel : reliable -> forall l s, pacer_ok s -> pacer_ok (steps l s)).
  { intros Hr. induction l as [|a l IH]; intros s Hs; [exact Hs|].
    simpl. apply IH.
    destruct (step_pacer_ok a s Hs) as [Hok'|(_ & m & error & Hsend)]; [exact Hok'|].
    rewrite Hr in Hsend. discriminate. }
  assert (Hinit : pacer_ok (constructor sid)) by (right; repeat split).
  intros s. split; [apply Hgen; left; exact Hinit|].
  split; [intros Hr; apply Hrel; assumption|].
  intros Hst more. apply steps_stalled. exact Hst.
Qed.

(** What a timer does when it fires on a pacer with a message at the
    front: the message leaves the queue and is handed to the socket, and
    the duration is updated; then, if [send] returned, the next timer is set
    if messages remain, and if it threw, the error is logged and the flag is
    left as it was. *)
Lemma timer_sends_front s m rest d :
  timers s = [d] -> queue s = m :: rest ->
  queue (step timer s) = rest
  /\ socket (step timer s) = socket s ++ [wire_of (streamSid s) m]
  /\ streamSid (step timer s) = streamSid s
  /\ packetDuration (step timer s) = duration_after m (packetDuration s)
  /\ match send_throws (socket s) (wire_of (streamSid s) m) with
     | None =>
         isSending (step timer s) = (0 <? length rest)%nat
         /\ timers (step timer s)
            = (if (0 <? length rest)%nat then [duration_after m (packetDuration s)]
               else [])
         /\ console (step timer s) = console s
     | Some error =>
         isSending (step timer s) = isSending s
         /\ timers (step timer s) = []
         /\ console (step timer s) = console s ++ [send_failed_line error]
     end.
Proof.
  intros Ht Hq. rewrite timer_step, Ht, Hq.
  assert (Hd : packetDuration (handed m rest (set_timers [] s))
               = duration_after m (packetDuration s)).
  { unfold handed, with_duration, duration_after.
    destruct (truthy_payload m); reflexivity. }
  destruct (handed_frame m rest (set_timers [] s))
    as (Fq & Fi & Ft & Fs & Fsid & _ & _ & Fc).
  remember (handed m rest (set_timers [] s)) as h eqn:Hh.
  destruct (send_throws (socket s) (wire_of (streamSid s) m)) as [error|].
  - cbn [queue socket streamSid packetDuration isSending timers console set_console].
    rewrite Fq, Fi, Ft, Fs, Fsid, Hd. repeat split.
  - rewrite processNext_spec. cbn [snd].
    cbn [isSending queue set_isSending negb andb]. rewrite Fq.
    destruct (0 <? length rest)%nat;
      cbn [queue socket streamSid packetDuration isSending timers console
           set_isSending set_timers];
      rewrite ?Fq, ?Ft, ?Fs, ?Fsid, ?Hd, ?Fc; repeat split.
Qed.

Lemma accepts_cons sent message later :
  accepts sent (message :: later) = true ->
  send_throws sent message = None /\ accepts (sent ++ [message]) later = true.
Proof. simpl. destruct (send_throws sent message); [discriminate|auto]. Qed.

(** X2: on an object that keeps the pacer invariant and a socket that takes
    the queued messages one after the other, as many timer events as there
    are queued messages hand the whole queue to the socket, oldest first
    and each message once, and leave the queue empty; if there was anything
    to send, the pacer ends idle with no timer pending.  If instead [send]
    throws on the message at the front, that message has left the queue
    all the same, and however many timer events follow, nothing more is
    handed to the socket: the rest stays queued and the pacer is stalled. *)
Theorem timers_drain_queue_in_order (s : CallMediaQueue) :
  pacer_ok s ->
  (accepts (socket s) (wire_of (streamSid s) <$> queue s) = true ->
   let s' := steps (replicate (length (queue s)) timer) s in
   socket s' = socket s ++ (wire_of (streamSid s) <$> queue s)
   /\ queue s' = []
   /\ (queue s <> [] -> isSending s' = false /\ timers s' = []))
  /\ (forall m rest error n,
        queue s = m :: rest ->
        send_throws (socket s) (wire_of (streamSid s) m) = Some error ->
        let s' := steps (replicate (S n) timer) s in
        socket s' = socket s ++ [wire_of (streamSid s) m]
        /\ queue s' = rest
        /\ stalled s').
Proof.
  intros Hok. split.
  - remember (queue s) as q eqn:Hq. revert s Hq Hok.
    induction q as [|m rest IH]; intros s Hq Hok Hacc; simpl.
    + rewrite app_nil_r. split; [reflexivity|]. split; [congruence|].
      intros Hne. congruence.
    + destruct Hok as [(Hs & d & Ht)|(_ & _ & Hempty)]; [|congruence].
      symmetry in Hq.
      apply accepts_cons in Hacc. destruct Hacc as (Hsend & Hacc).
      destruct (timer_sends_front s m rest d Ht Hq) as (Fq & Fs & Fsid & _ & Fout).
      rewrite Hsend in Fout. destruct Fout as (Fis & Fts & _).
      assert (Hok' : pacer_ok (step timer s)).
      { unfold pacer_ok. rewrite Fis, Fts, Fq.
        destruct rest; simpl; [right; auto|left; eauto]. }
      specialize (IH (step timer s) (eq_sym Fq) Hok').
      rewrite Fs, Fsid in IH. specialize (IH Hacc). simpl in IH.
      destruct IH as (IHs & IHq & IHidle).
      rewrite IHs, IHq, <- app_assoc. simpl.
      split; [reflexivity|]. split; [reflexivity|]. intros _.
      destruct rest as [|m' rest'].
      * simpl. simpl in Fis, Fts. auto.
      * apply IHidle. discriminate.
  - intros m rest error n Hq Hsend.
    destruct Hok as [(Hs & d & Ht)|(_ & _ & Hempty)]; [|congruence].
    destruct (timer_sends_front s m rest d Ht Hq) as (Fq & Fs & _ & _ & Fout).
    rewrite Hsend in Fout. destruct Fout as (Fis & Fts & _).
    assert (Hst : stalled (step timer s)) by (split; congruence).
    simpl.
    assert (Hidle : forall k t, timers t = [] -> steps (replicate k timer) t = t).
    { induction k as [|k IHk]; intros t Hnone; [reflexivity|].
      simpl. rewrite timer_step, Hnone. apply IHk. exact Hnone. }
    rewrite (Hidle n (step timer s) Fts).
    split; [exact Fs|]. split; [exact Fq|exact Hst].
Qed.

(** X3: the delay of the timer set after a message is sent is the duration
    of that message (for a message without payload, the duration in force
    before it): pacing lags by exactly one packet.  The duration is updated
    before the message is handed to the socket, so it is that of the message
    also when [send] throws; no timer is set then.  And the timer set when a
    message is admitted by an idle pacer has the duration in force then. *)
Theorem next_delay_is_duration_of_packet_sent :
  (forall s m m' rest d,
      timers s = [d] -> queue s = m :: m' :: rest ->
      packetDuration (step timer s) = duration_after m (packetDuration s)
      /\ (send_throws (socket s) (wire_of (streamSid s) m) = None ->
          timers (step timer s) = [duration_after m (packetDuration s)])
      /\ (send_throws (socket s) (wire_of (streamSid s) m) <> None ->
          timers (step timer s) = []))
  /\ (forall s m,
        isSending s = false ->
        js_ge (num_of_nat (length (queue s))) (bufferLimit s) = false ->
        timers (snd (enqueue m s)) = timers s ++ [packetDuration s]).
Proof.
  split.
  - intros s m m' rest d Ht Hq.
    destruct (timer_sends_front s m (m' :: rest) d Ht Hq) as (_ & _ & _ & Fd & Fout).
    split; [exact Fd|].
    destruct (send_throws (socket s) (wire_of (streamSid s) m)) as [error|].
    + split; [discriminate|]. intros _. apply Fout.
    + split; [|congruence]. intros _. destruct Fout as (_ & Fts & _). exact Fts.
  - intros s m Hs Hfull. rewrite enqueue_spec, Hfull, processNext_spec. simpl snd.
    simpl isSending. simpl queue. rewrite Hs, length_app. simpl negb. simpl length.
    destruct (Nat.ltb_spec 0 (length (queue s) + 1)); [reflexivity|lia].
Qed.

Lemma processNext_outbound s : outbound (snd (processNext s)) = outbound s.
Proof.
  rewrite processNext_spec. simpl snd.
  destruct (negb (isSending s) && (0 <? length (queue s))%nat); reflexivity.
Qed.

(** X4: messages are handed to the socket in the order they were
    admitted, and each once.  The messages handed to [send], whether it took
    them or threw, followed by the queue stay the same under every action,
    except that [media] and [mark] may append their one message at the end,
    and that [clear] hands its [clear] message to the socket and, when
    [send] returns, drops the queue; when that [send] throws, the queue is
    kept. *)
Theorem outbound_order_kept (a : Action) (s : CallMediaQueue) :
  match a with
  | call_clear =>
      match send_throws (socket s) (clear_wire (streamSid s)) with
      | None => outbound (step a s) = socket s ++ [clear_wire (streamSid s)]
      | Some _ =>
          socket (step a s) = socket s ++ [clear_wire (streamSid s)]
          /\ queue (step a s) = queue s
      end
  | call_media p =>
      outbound (step a s) = outbound s
      \/ outbound (step a s)
         = outbound s ++ [wire_of (streamSid s)
                            (stored_form (volumeLevel s) (media_message p))]
  | call_mark n =>
      outbound (step a s) = outbound s
      \/ outbound (step a s) = outbound s ++ [wire_of (streamSid s) (mark_message n)]
  | _ => outbound (step a s) = outbound s
  end.
Proof.
  assert (Henq : forall m,
            outbound (snd (enqueue m s)) = outbound s
            \/ outbound (snd (enqueue m s))
               = outbound s ++ [wire_of (streamSid s) (stored_form (volumeLevel s) m)]).
  { intros m. rewrite enqueue_spec.
    destruct (js_ge (num_of_nat (length (queue s))) (bufferLimit s)); [left; reflexivity|].
    right. rewrite processNext_outbound. unfold outbound. simpl.
    rewrite fmap_app, app_assoc. reflexivity. }
  destruct a as [p|nm| |v|l| |parsed|e].
  - apply Henq.
  - destruct (Henq (mark_message nm)) as [E|E]; [left|right]; exact E.
  - unfold step, run, clear, clearQueue, outbound. run_monad.
    rewrite sendToTwilio_spec.
    change (wire_of (streamSid s) {| event := ev_clear; media := None; mark := None |})
      with (clear_wire (streamSid s)).
    destruct (send_throws (socket s) (clear_wire (streamSid s))); simpl.
    + split; reflexivity.
    + rewrite app_nil_r. reflexivity.
  - unfold step, run. destruct (setVolume_cases v s) as [->|(g & -> & ->)]; reflexivity.
  - unfold step, run.
    destruct (setBufferLimit_cases l s) as [->|(n & -> & _ & ->)]; reflexivity.
  - rewrite timer_step.
    destruct (timers s) as [|d ts]; [reflexivity|].
    destruct (queue s) as [|m rest] eqn:Hq.
    + unfold outbound. simpl. rewrite Hq. reflexivity.
    + destruct (handed_frame m rest (set_timers ts s))
        as (Fq & _ & _ & Fs & Fsid & _).
      assert (Hout : outbound (handed m rest (set_timers ts s)) = outbound s).
      { unfold outbound. rewrite Fq, Fs, Fsid. simpl. rewrite Hq, <- app_assoc.
        reflexivity. }
      destruct (send_throws (socket s) (wire_of (streamSid s) m)) as [error|].
      * exact Hout.
      * rewrite processNext_outbound. exact Hout.
  - unfold step, run, on_message, get_prop, emit_mark. run_monad.
    destruct parsed as [e|data]; [reflexivity|].
    destruct data as [| | | | | |fields]; try reflexivity.
    destruct (get_field "event" fields) as [| | | |tag| |]; try reflexivity.
    destruct (String.eqb tag "mark"); [|reflexivity].
    destruct (get_field "mark" fields) as [| | | | | |fs]; reflexivity.
  - reflexivity.
Qed.

Lemma step_streamSid a s :
  streamSid (step a s) = streamSid s
  /\ exists sent, socket (step a s) = socket s ++ sent
                  /\ Forall (fun w => w_streamSid w = streamSid s) sent.
Proof.
  assert (Hnil : exists sent, socket s = socket s ++ sent
             /\ Forall (fun w => w_streamSid w = streamSid s) sent).
  { exists []. rewrite app_nil_r. split; [reflexivity|constructor]. }
  assert (Henq : forall m,
    streamSid (snd (enqueue m s)) = streamSid s
    /\ exists sent, socket (snd (enqueue m s)) = socket s ++ sent
                    /\ Forall (fun w => w_streamSid w = streamSid s) sent).
  { intros m. rewrite enqueue_spec.
    destruct (js_ge (num_of_nat (length (queue s))) (bufferLimit s)).
    - split; [reflexivity|exact Hnil].
    - rewrite processNext_spec. simpl snd.
      match goal with |- context [if ?c then _ else _] => destruct c end;
        (split; [reflexivity|exact Hnil]). }
  destruct a as [p|nm| |v|l| |parsed|e].
  - apply Henq.
  - apply Henq.
  - unfold step, run.
    destruct (clear_frame s) as (_ & _ & _ & _ & _ & -> & _ & _ & -> & _).
    split; [reflexivity|]. eexists. split; [reflexivity|]. repeat constructor.
  - unfold step, run. destruct (setVolume_cases v s) as [->|(g & -> & ->)];
      (split; [reflexivity|exact Hnil]).
  - unfold step, run.
    destruct (setBufferLimit_cases l s) as [->|(n & -> & _ & ->)];
      (split; [reflexivity|exact Hnil]).
  - rewrite timer_step.
    destruct (timers s) as [|d ts]; [split; [reflexivity|exact Hnil]|].
    destruct (queue s) as [|m rest] eqn:Hq; [split; [reflexivity|exact Hnil]|].
    destruct (handed_frame m rest (set_timers ts s))
      as (_ & _ & _ & Fs & Fsid & _).
    assert (Hone : exists sent,
               socket (handed m rest (set_timers ts s)) = socket s ++ sent
               /\ Forall (fun w => w_streamSid w = streamSid s) sent).
    { rewrite Fs. eexists. split; [reflexivity|]. repeat constructor. }
    destruct (send_throws (socket s) (wire_of (streamSid s) m)) as [error|].
    + split; [exact Fsid|exact Hone].
    + rewrite processNext_spec. cbn [snd].
      match goal with |- context [if ?c then _ else _] => destruct c end;
        (split; [exact Fsid|exact Hone]).
  - unfold step, run, on_message, get_prop, emit_mark. run_monad.
    destruct parsed as [e|data]; [split; [reflexivity|exact Hnil]|].
    destruct data as [| | | | | |fields]; try (split; [reflexivity|exact Hnil]).
    destruct (get_field "event" fields) as [| | | |tag| |];
      try (split; [reflexivity|exact Hnil]).
    destruct (String.eqb tag "mark"); [|split; [reflexivity|exact Hnil]].
    destruct (get_field "mark" fields) as [| | | | | |fs];
      (split; [reflexivity|exact Hnil]).
  - split; [reflexivity|exact Hnil].
Qed.

(** X5: every message an object hands to the socket, by whatever sequence of
    calls, timers and inbound messages, carries the [streamSid] the object
    was constructed with. *)
Theorem every_wire_message_carries_streamSid (sid : string) (actions : list Action) :
  Forall (fun w => w_streamSid w = sid) (socket (steps actions (constructor sid))).
Proof.
  assert (Hgen : forall l s,
            streamSid s = sid -> Forall (fun w => w_streamSid w = sid) (socket s) ->
            Forall (fun w => w_streamSid w = sid) (socket (steps l s))).
  { induction l as [|a l IH]; intros s Hsid Hall; [exact Hall|].
    simpl. destruct (step_streamSid a s) as (Fsid & sent & Fs & Hsent).
    apply IH; [congruence|]. rewrite Fs. apply Forall_app. split; [exact Hall|].
    rewrite <- Hsid. exact Hsent. }
  apply Hgen; [reflexivity|constructor].
Qed.

(** X6: the setters throw their own error and leave the object exactly as
    it was; [clear()] throws what [send] throws, with the [clear] message
    handed to the socket and nothing else changed; and nothing else throws:
    [media], [mark], the timer callback and both socket handlers always
    return normally, whatever [send] does.  So with a [send] that does not
    throw, only the two setters throw. *)
Theorem only_setters_throw (a : Action) (s : CallMediaQueue) (e : exn) :
  fst (run a s) = inl e ->
  (snd (run a s) = s
   /\ ((exists v, a = call_setVolume v /\ e = invalid_volume)
       \/ (exists l, a = call_setBufferLimit l /\ e = invalid_limit)))
  \/ (a = call_clear
      /\ send_throws (socket s) (clear_wire (streamSid s)) = Some e
      /\ snd (run a s) = set_socket (socket s ++ [clear_wire (streamSid s)]) s).
Proof.
  assert (Henq : forall m, fst (enqueue m s) = inr tt).
  { intros m. rewrite enqueue_spec.
    destruct (js_ge (num_of_nat (length (queue s))) (bufferLimit s)); [reflexivity|].
    rewrite processNext_spec. reflexivity. }
  destruct a as [p|nm| |v|l| |parsed|e0]; simpl run.
  - unfold media_. rewrite Henq. discriminate.
  - unfold mark_. rewrite Henq. discriminate.
  - unfold clear, clearQueue. run_monad. rewrite sendToTwilio_spec.
    change (wire_of (streamSid s) {| event := ev_clear; media := None; mark := None |})
      with (clear_wire (streamSid s)).
    destruct (send_throws (socket s) (clear_wire (streamSid s))) as [error|];
      simpl; [|discriminate].
    intros He. injection He as <-. right. repeat split.
  - destruct (setVolume_cases v s) as [->|(g & -> & ->)]; simpl; [|discriminate].
    intros He. injection He as <-. left. split; [reflexivity|]. left. eauto.
  - destruct (setBufferLimit_cases l s) as [->|(n & -> & _ & ->)]; simpl; [|discriminate].
    intros He. injection He as <-. left. split; [reflexivity|]. right. eauto.
  - unfold timer_fires. run_monad.
    destruct (timers s) as [|d ts]; [discriminate|].
    destruct (queue (set_timers ts s)) as [|m rest] eqn:Hq.
    + rewrite (sendNext_empty _ Hq). discriminate.
    + rewrite (sendNext_cons _ m rest Hq).
      destruct (send_throws _ _); [discriminate|].
      rewrite processNext_spec. discriminate.
  - destruct (on_message_frame parsed s) as (-> & _). discriminate.
  - discriminate.
Qed.

(** ** The buffer limit *)

Lemma enqueue_limit_frame m s :
  bufferLimit (snd (enqueue m s)) = bufferLimit s
  /\ volumeLevel (snd (enqueue m s)) = volumeLevel s.
Proof. destruct (enqueue_frame m s) as (_ & Hv & Hb & _). auto. Qed.

Lemma enqueue_console m s :
  console (snd (enqueue m s)) =
    if js_ge (num_of_nat (length (queue s))) (bufferLimit s)
    then console s ++ [dropped_warning] else console s.
Proof.
  rewrite enqueue_spec.
  destruct (js_ge (num_of_nat (length (queue s))) (bufferLimit s)); [reflexivity|].
  rewrite processNext_spec. simpl snd.
  match goal with |- context [if ?c then _ else _] => destruct c end; reflexivity.
Qed.

Lemma enqueue_queue_any m s :
  queue (snd (enqueue m s)) =
    if js_ge (num_of_nat (length (queue s))) (bufferLimit s)
    then queue s else queue s ++ [stored_form (volumeLevel s) m].
Proof.
  rewrite enqueue_spec.
  destruct (js_ge (num_of_nat (length (queue s))) (bufferLimit s)); [reflexivity|].
  match goal with |- queue (snd (processNext ?t)) = _ =>
    destruct (processNext_frame t) as (-> & _) end.
  reflexivity.
Qed.

(** X9: every offer is either queued or reported: after offering a list of
    messages, the console has grown by one "Buffer limit reached" warning per
    dropped message and by nothing else, and the queue by one message per
    offer that was not dropped.  This holds for every buffer limit. *)
Theorem every_offer_queued_or_warned (items : list SocketMessage) (s : CallMediaQueue) :
  exists dropped : nat,
    (dropped <= length items)%nat
    /\ console (offer_all items s) = console s ++ replicate dropped dropped_warning
    /\ length (queue (offer_all items s))
       = (length (queue s) + (length items - dropped))%nat.
Proof.
  revert s. induction items as [|m items IH]; intros s.
  - exists 0%nat. simpl. rewrite app_nil_r. repeat split; lia.
  - simpl offer_all. fold (offer_all items (snd (enqueue m s))).
    destruct (IH (snd (enqueue m s))) as (k & Hk & Hc & Hq).
    rewrite Hc, Hq, enqueue_console, enqueue_queue_any.
    destruct (js_ge (num_of_nat (length (queue s))) (bufferLimit s)).
    + exists (S k). simpl length. split; [lia|]. split; [|lia].
      rewrite <- app_assoc. reflexivity.
    + exists k. simpl length. rewrite length_app. simpl length.
      split; [lia|]. split; [reflexivity|lia].
Qed.

Lemma js_ge_NaN x : js_ge x js_NaN = false.
Proof. destruct x as [|[]| |]; reflexivity. Qed.

Lemma offer_all_unbounded : forall items s,
  bufferLimit s = js_NaN ->
  queue (offer_all items s) = queue s ++ (stored_form (volumeLevel s) <$> items)
  /\ console (offer_all items s) = console s.
Proof.
  induction items as [|m items IH]; intros s Hl.
  - simpl. rewrite app_nil_r. auto.
  - simpl offer_all. fold (offer_all items (snd (enqueue m s))).
    destruct (enqueue_limit_frame m s) as (Fl & Fv).
    assert (Hl' : bufferLimit (snd (enqueue m s)) = js_NaN) by (rewrite Fl; exact Hl).
    destruct (IH (snd (enqueue m s)) Hl') as (Hq & Hc).
    rewrite Hq, Hc, Fv, enqueue_queue_any, enqueue_console, Hl, js_ge_NaN.
    rewrite <- app_assoc. auto.
Qed.

(** X10: [setBufferLimit(NaN)] is accepted, and from then on the queue is
    unbounded: every offer is queued, in order, and nothing is dropped or
    warned about. *)
Theorem NaN_limit_never_drops (items : list SocketMessage) (s : CallMediaQueue) :
  let s1 := step (call_setBufferLimit (VNumber js_NaN)) s in
  run (call_setBufferLimit (VNumber js_NaN)) s = (inr tt, s1)
  /\ queue (offer_all items s1) = queue s ++ (stored_form (volumeLevel s) <$> items)
  /\ console (offer_all items s1) = console s.
Proof.
  intros s1. split; [reflexivity|].
  apply (offer_all_unbounded items s1). reflexivity.
Qed.

Lemma js_lt_nat_zero n : Z.of_nat n < 2 ^ 53 -> js_lt (num_of_nat n) (num_of_Z 0) = false.
Proof.
  intros Hn. unfold js_lt, num_of_nat.
  rewrite (js_compare_int _ _ (Z.of_nat n) 0)
    by (apply is_int_num_of_Z; simpl; lia).
  destruct (Z.compare_spec (Z.of_nat n) 0); try reflexivity. lia.
Qed.

(** X11: lowering the buffer limit to [n] while the queue holds [n]
    messages or more evicts nothing, and every later offer is dropped as
    long as the queue is not drained. *)
Theorem lowering_limit_keeps_queue_and_blocks_offers
    (n : nat) (s : CallMediaQueue) (items : list SocketMessage) :
  Z.of_nat (length (queue s)) < 2 ^ 53 ->
  (n <= length (queue s))%nat ->
  let s1 := step (call_setBufferLimit (VNumber (num_of_nat n))) s in
  bufferLimit s1 = num_of_nat n
  /\ queue s1 = queue s
  /\ queue (offer_all items s1) = queue s
  /\ console (offer_all items s1)
     = console s ++ replicate (length items) dropped_warning.
Proof.
  intros Hlen Hn s1.
  assert (Hs1 : s1 = set_bufferLimit (num_of_nat n) s).
  { unfold s1, step, run, setBufferLimit. run_monad. cbn [typeof_number].
    rewrite js_lt_nat_zero by lia. reflexivity. }
  rewrite Hs1. split; [reflexivity|]. split; [reflexivity|].
  assert (Hgen : forall l t,
            bufferLimit t = num_of_nat n -> queue t = queue s ->
            queue (offer_all l t) = queue s
            /\ console (offer_all l t) = console t ++ replicate (length l) dropped_warning).
  { induction l as [|m l IH]; intros t Hl Hq.
    - simpl. rewrite app_nil_r. auto.
    - simpl offer_all. fold (offer_all l (snd (enqueue m t))).
      destruct (enqueue_limit_frame m t) as (Fl & _).
      assert (Hfull : js_ge (num_of_nat (length (queue t))) (bufferLimit t) = true).
      { rewrite Hl, Hq, js_ge_nat by lia. apply Nat.leb_le. exact Hn. }
      assert (Hq' : queue (snd (enqueue m t)) = queue s).
      { rewrite enqueue_queue_any, Hfull. exact Hq. }
      assert (Hl' : bufferLimit (snd (enqueue m t)) = num_of_nat n) by (rewrite Fl; exact Hl).
      destruct (IH (snd (enqueue m t)) Hl' Hq') as (IHq & IHc).
      rewrite IHq, IHc, enqueue_console, Hfull, <- app_assoc. auto. }
  apply (Hgen items (set_bufferLimit (num_of_nat n) s)); reflexivity.
Qed.

(** ** One message through an idle object *)



(** ** The settings *)

Lemma setVolume_checked v s :
  setVolume v s = (inl invalid_volume, s)
  \/ exists g, v = VNumber g
       /\ js_lt g (num_of_Z 0) = false /\ js_gt g (num_of_Z 1) = false
       /\ setVolume v s =
            (inr tt, set_volumeLevel (Math_max (num_of_Z 0) (Math_min (num_of_Z 1) g)) s).
Proof.
  unfold setVolume. run_monad.
  destruct v as [| | |g| | |]; cbn [typeof_number]; try (left; reflexivity).
  destruct (js_lt g (num_of_Z 0)) eqn:L0; [left; reflexivity|].
  destruct (js_gt g (num_of_Z 1)) eqn:G1; [left; reflexivity|].
  right. exists g. split; [reflexivity|]. split; [exact L0|]. split; [exact G1|].
  reflexivity.
Qed.

Lemma step_settings_ok a s : settings_ok s -> settings_ok (step a s).
Proof.
  intros [Hv Hl]. unfold settings_ok.
  destruct a as [p|nm| |v|l| |parsed|e].
  - unfold step, run, media_. destruct (enqueue_limit_frame (media_message p) s) as (Fl & Fv).
    unfold media_message in *. rewrite Fl, Fv. auto.
  - unfold step, run, mark_. destruct (enqueue_limit_frame (mark_message nm) s) as (Fl & Fv).
    unfold mark_message in *. rewrite Fl, Fv. auto.
  - unfold step, run.
    destruct (clear_frame s) as (_ & -> & -> & _). auto.
  - unfold step, run.
    destruct (setVolume_checked v s) as [->|(g & -> & L0 & G1 & E)]; [auto|].
    rewrite E. cbn [snd volumeLevel bufferLimit set_volumeLevel]. split; [|exact Hl].
    destruct g as [sg|sg| |sg mg eg].
    + right. destruct sg; split; reflexivity.
    + destruct sg; discriminate.
    + left. reflexivity.
    + right.
      assert (H0 : js_le (num_of_Z 0) (S754_finite sg mg eg) = true).
      { unfold js_lt in L0. unfold js_le.
        rewrite (js_compare_antisym (S754_finite sg mg eg) (num_of_Z 0)).
        destruct (js_compare (S754_finite sg mg eg) (num_of_Z 0)) as [[]|] eqn:C;
          try reflexivity; discriminate. }
      assert (H1 : js_le (S754_finite sg mg eg) (num_of_Z 1) = true).
      { unfold js_gt in G1. unfold js_le.
        destruct (js_compare (S754_finite sg mg eg) (num_of_Z 1)) as [[]|] eqn:C;
          try reflexivity; discriminate. }
      destruct (setVolume_stores (S754_finite sg mg eg) s H0 H1)
        as (stored & Hst & _ & Hcases).
      rewrite E in Hst. injection Hst as Hst.
      assert (Hst' : Math_max (num_of_Z 0) (Math_min (num_of_Z 1) (S754_finite sg mg eg))
                     = stored) by exact Hst.
      rewrite Hst'. destruct Hcases as [->|[->| ->]]; auto.
  - unfold step, run.
    destruct (setBufferLimit_cases l s) as [->|(n & -> & Hn & ->)]; simpl; auto.
  - rewrite timer_step. destruct (timers s) as [|d ts]; [auto|].
    destruct (queue s) as [|m rest]; [auto|].
    destruct (handed_frame m rest (set_timers ts s))
      as (_ & _ & _ & _ & _ & Fv & Fl & _).
    destruct (send_throws (socket s) (wire_of (streamSid s) m)) as [error|].
    + cbn [volumeLevel bufferLimit set_console]. rewrite Fv, Fl. auto.
    + match goal with |- context [snd (processNext ?t)] =>
        destruct (processNext_frame t) as (_ & _ & _ & -> & -> & _) end.
      cbn [volumeLevel bufferLimit set_isSending]. rewrite Fv, Fl. auto.
  - unfold step, run.
    destruct (on_message_frame parsed s) as (_ & _ & _ & _ & _ & _ & -> & ->). auto.
  - auto.
Qed.

(** X13: on every object, whatever is called on it, the volume level is NaN
    or lies between 0 and 1, and the buffer limit is not below 0: the
    setters never store a value out of range other than NaN. *)
Theorem settings_stay_in_range (sid : string) (actions : list Action) :
  settings_ok (steps actions (constructor sid)).
Proof.
  assert (Hgen : forall l s, settings_ok s -> settings_ok (steps l s)).
  { induction l as [|a l IH]; intros s Hs; [exact Hs|].
    simpl. apply IH. apply step_settings_ok. exact Hs. }
  apply Hgen. split; [right; split; reflexivity|reflexivity].
Qed.

(** A number below 0 is [-Infinity] or a negative finite number. *)
Lemma js_lt_zero_negative v :
  js_lt v (num_of_Z 0) = true ->
  v = S754_infinity true \/ exists m e, v = S754_finite true m e.
Proof.
  destruct v as [sv|[]| |[] m e]; try discriminate; eauto.
  unfold js_lt. change (num_of_Z 0) with (S754_zero false).
  unfold js_compare, dyadic. simpl cond_Zopp.
  destruct (cmp_dyadic_signs m m e e) as (_ & _ & _ & -> & _). discriminate.
Qed.

Lemma one_gt_negative m e :
  js_compare (num_of_Z 1) (S754_finite true m e) = Some Gt
  /\ js_compare (num_of_Z 0) (S754_finite true m e) = Some Gt.
Proof.
  change (num_of_Z 1) with (S754_finite false 4503599627370496 (-52)).
  change (num_of_Z 0) with (S754_zero false).
  unfold js_compare, dyadic. simpl cond_Zopp. change (- Z.pos m) with (Z.neg m).
  destruct (cmp_dyadic_signs 4503599627370496 m (-52) e) as (_ & -> & _).
  destruct (cmp_dyadic_signs m m e e) as (_ & _ & _ & _ & -> & _).
  auto.
Qed.

(** X14: the earlier [setVolume] never throws: it stores 0 for a number
    below 0, 1 for a number above 1, NaN for NaN, and for a number between 0
    and 1 a number [===] to it. *)
Theorem previous_setVolume_clamps (v : number) (s : CallMediaQueue) :
  exists stored,
    Previous.setVolume v s = (inr tt, set_volumeLevel stored s)
    /\ (js_lt v (num_of_Z 0) = true -> stored = num_of_Z 0)
    /\ (js_gt v (num_of_Z 1) = true -> stored = num_of_Z 1)
    /\ (v = js_NaN -> stored = js_NaN)
    /\ (js_le (num_of_Z 0) v = true -> js_le v (num_of_Z 1) = true ->
        js_seq stored v = true).
Proof.
  exists (Math_max (num_of_Z 0) (Math_min (num_of_Z 1) v)).
  split; [reflexivity|]. split; [|split; [|split]].
  - intros Hlt. destruct (js_lt_zero_negative v Hlt) as [->|(m & e & ->)]; [reflexivity|].
    destruct (one_gt_negative m e) as (H1 & H0).
    rewrite Math_min_one, H1, Math_max_zero, H0. reflexivity.
  - intros Hgt. unfold js_gt in Hgt.
    rewrite Math_min_one, (js_compare_antisym v (num_of_Z 1)).
    destruct (js_compare v (num_of_Z 1)) as [[]|]; try discriminate. reflexivity.
  - intros ->. reflexivity.
  - intros H0 H1.
    destruct (setVolume_stores v s H0 H1) as (stored & Hst & Hseq & _).
    destruct (setVolume_checked (VNumber v) s) as [E|(g & Hg & _ & _ & E)].
    + rewrite E in Hst. discriminate.
    + injection Hg as <-. rewrite E in Hst. injection Hst as Hst.
      assert (Hst' : Math_max (num_of_Z 0) (Math_min (num_of_Z 1) v) = stored) by exact Hst.
      rewrite Hst'. exact Hseq.
Qed.

Lemma previous_adjustVolume_same (audioData : Buffer.t) s :
  Previous.adjustVolume audioData s = adjustVolume audioData s.
Proof.
  rewrite adjustVolume_spec.
  pose proof (adjustVolume_at_spec (volumeLevel s) audioData) as Hat.
  unfold Previous.adjustVolume, adjustVolume_at in *. run_monad.
  destruct (js_seq (volumeLevel s) (num_of_Z 1)); reflexivity.
Qed.

(** The earlier [sendNext] has no [try]: what [send] throws escapes it. *)
Lemma previous_sendNext_cons s m rest :
  queue s = m :: rest ->
  Previous.sendNext s =
    match send_throws (socket s) (wire_of (streamSid s) m) with
    | None => processNext (set_isSending false (handed m rest s))
    | Some error => (inl error, handed m rest s)
    end.
Proof.
  intros Hq. unfold Previous.sendNext. run_monad. rewrite Hq.
  unfold handed, with_duration.
  destruct (truthy_payload m) as [p|]; cbn -[processNext sendToTwilio];
    rewrite sendToTwilio_spec; cbn -[processNext];
    destruct (send_throws _ _) as [error|]; try reflexivity;
    destruct (processNext _) as [[e|[]] s'] eqn:E; try reflexivity;
    rewrite processNext_spec in E; discriminate.
Qed.

Lemma previous_sendNext_returns s s' :
  Previous.sendNext s = (inr tt, s') -> sendNext s = (inr tt, s').
Proof.
  destruct (queue s) as [|m rest] eqn:Hq.
  - rewrite (sendNext_empty s Hq). unfold Previous.sendNext. run_monad.
    rewrite Hq. intros E. exact E.
  - rewrite (sendNext_cons s m rest Hq), (previous_sendNext_cons s m rest Hq).
    destruct (send_throws _ _); [discriminate|]. intros E. exact E.
Qed.

Lemma previous_sendNext_throws s s' e :
  Previous.sendNext s = (inl e, s') ->
  sendNext s = (inr tt, set_console (console s' ++ [send_failed_line e]) s')
  /\ console s' = console s.
Proof.
  destruct (queue s) as [|m rest] eqn:Hq.
  - unfold Previous.sendNext. run_monad. rewrite Hq. discriminate.
  - rewrite (sendNext_cons s m rest Hq), (previous_sendNext_cons s m rest Hq).
    destruct (handed_frame m rest s) as (_ & _ & _ & _ & _ & _ & _ & Fc).
    destruct (send_throws _ _) as [error|].
    + intros E. injection E as <- <-. rewrite Fc. split; reflexivity.
    + rewrite processNext_spec. discriminate.
Qed.

Lemma previous_enqueue_spec m s :
  Previous.enqueue m s
  = processNext (set_queue (queue s ++ [stored_form (volumeLevel s) m]) s).
Proof.
  unfold Previous.enqueue. run_monad. unfold stored_form.
  destruct (media m) as [md|]; [|reflexivity].
  destruct (js_seq (volumeLevel s) (num_of_Z 1)) eqn:Hv; [|reflexivity].
  pose proof (previous_adjustVolume_same (base64_decode (payload md)) s) as Ha.
  rewrite adjustVolume_spec, adjustVolume_at_spec, Hv in Ha.
  rewrite Ha. reflexivity.
Qed.

(** X15: the later version only adds checks to the earlier one.  Where the
    later [setVolume] returns, the earlier one stores the same level; where
    the later [enqueue] does not drop, both push the same message; both
    [adjustVolume] always agree; the two [sendNext] agree whenever the
    earlier one returns, and an exception of [send], which escapes the
    earlier [sendNext], is what the later one logs, the object being the
    same otherwise; likewise the message handlers agree on every message
    that the earlier one handles without throwing, while an exception that
    escapes the earlier handler, leaving the object as it was, is what the
    later handler logs. *)
Theorem later_version_adds_checks_only :
  (forall v s s', setVolume (VNumber v) s = (inr tt, s') ->
                  Previous.setVolume v s = (inr tt, s'))
  /\ (forall m s, js_ge (num_of_nat (length (queue s))) (bufferLimit s) = false ->
                  Previous.enqueue m s = enqueue m s)
  /\ (forall s s', Previous.sendNext s = (inr tt, s') -> sendNext s = (inr tt, s'))
  /\ (forall s s' e, Previous.sendNext s = (inl e, s') ->
        sendNext s = (inr tt, set_console (console s' ++ [send_failed_line e]) s')
        /\ console s' = console s)
  /\ (forall audioData s, Previous.adjustVolume audioData s = adjustVolume audioData s)
  /\ (forall parsed s s', Previous.on_message parsed s = (inr tt, s') ->
                          on_message parsed s = (inr tt, s'))
  /\ (forall parsed s s' e, Previous.on_message parsed s = (inl e, s') ->
        s' = s
        /\ on_message parsed s
           = (inr tt,
              set_console (console s ++ [console_error_line "Error parsing message data" e]) s)).
Proof.
  split; [|split; [|split; [|split; [|split; [|split]]]]].
  - intros v s s' Hv.
    destruct (setVolume_checked (VNumber v) s) as [E|(g & Hg & _ & _ & E)].
    + rewrite E in Hv. discriminate.
    + injection Hg as <-. rewrite E in Hv. rewrite <- Hv. reflexivity.
  - intros m s Hroom. rewrite previous_enqueue_spec, enqueue_spec, Hroom. reflexivity.
  - apply previous_sendNext_returns.
  - apply previous_sendNext_throws.
  - apply previous_adjustVolume_same.
  - intros parsed s s'.
    unfold Previous.on_message, on_message, get_prop, emit_mark. run_monad.
    destruct parsed as [e|data]; [discriminate|].
    destruct data as [| | | | | |fields]; try discriminate; try (intros E; exact E).
    destruct (get_field "event" fields) as [| | | |tag| |]; try (intros E; exact E).
    destruct (String.eqb tag "mark"); [|intros E; exact E].
    destruct (get_field "mark" fields) as [| | | | | |fs];
      try discriminate; intros E; exact E.
  - intros parsed s s' e.
    unfold Previous.on_message, on_message, get_prop, emit_mark. run_monad.
    destruct parsed as [e0|data].
    { intros E. injection E as <- <-. split; reflexivity. }
    destruct data as [| | | | | |fields]; try discriminate;
      try (intros E; injection E as <- <-; split; reflexivity).
    destruct (get_field "event" fields) as [| | | |tag| |]; try discriminate.
    destruct (String.eqb tag "mark"); [|discriminate].
    destruct (get_field "mark" fields) as [| | | | | |fs]; try discriminate;
      intros E; injection E as <- <-; split; reflexivity.
Qed.

Lemma processNext_delays_ok s : delays_ok s -> delays_ok (snd (processNext s)).
Proof.
  intros [Hd Ht]. rewrite processNext_spec. simpl snd.
  destruct (negb (isSending s) && (0 <? length (queue s))%nat); [|split; assumption].
  split; [exact Hd|]. simpl. apply Forall_app. split; [exact Ht|]. repeat constructor.
  exact Hd.
Qed.

Lemma step_delays_ok a s : delays_ok s -> delays_ok (step a s).
Proof.
  intros Hok.
  assert (Henq : forall m, delays_ok (snd (enqueue m s))).
  { intros m. rewrite enqueue_spec.
    destruct (js_ge (num_of_nat (length (queue s))) (bufferLimit s)); [exact Hok|].
    apply processNext_delays_ok. exact Hok. }
  destruct a as [p|nm| |v|l| |parsed|e].
  - apply Henq.
  - apply Henq.
  - unfold step, run, delays_ok.
    destruct (clear_frame s) as (-> & _ & _ & -> & _). exact Hok.
  - unfold step, run. destruct (setVolume_cases v s) as [->|(g & -> & ->)]; exact Hok.
  - unfold step, run.
    destruct (setBufferLimit_cases l s) as [->|(n & -> & _ & ->)]; exact Hok.
  - rewrite timer_step. pose proof Hok as [Hd Ht].
    destruct (timers s) as [|d ts] eqn:Et; [exact Hok|].
    apply Forall_cons in Ht as [_ Hts].
    destruct (queue s) as [|m rest].
    + split; [exact I|exact Hts].
    + assert (Hh : delays_ok (handed m rest (set_timers ts s))).
      { unfold delays_ok.
        destruct (handed_frame m rest (set_timers ts s)) as (_ & _ & -> & _).
        split; [|exact Hts].
        unfold handed, with_duration. destruct (truthy_payload m); [|exact Hd].
        apply durationMs_not_negative. }
      destruct (send_throws (socket s) (wire_of (streamSid s) m)) as [error|].
      * exact Hh.
      * apply processNext_delays_ok. exact Hh.
  - unfold step, run, delays_ok.
    destruct (on_message_frame parsed s) as (_ & _ & _ & -> & _ & -> & _). exact Hok.
  - exact Hok.
Qed.

(** X16: no timer is ever set with a delay that is NaN or negative: on
    every object, whatever is called on it, the packet duration and the
    delay of each pending timer are a zero, a positive number or
    [+Infinity]. *)
Theorem delays_never_negative (sid : string) (actions : list Action) :
  not_negative (packetDuration (steps actions (constructor sid)))
  /\ Forall not_negative (timers (steps actions (constructor sid))).
Proof.
  assert (Hgen : forall l s, delays_ok s -> delays_ok (steps l s)).
  { induction l as [|a l IH]; intros s Hs; [exact Hs|].
    simpl. apply IH. apply step_delays_ok. exact Hs. }
  apply (Hgen actions (constructor sid)). split; [exact I|constructor].
Qed.

(** X17: [clear()] does not cancel the pending timer.  When its [send]
    returns: if that timer fires before anything is submitted, it finds the
    queue empty, the pacer goes idle and the duration is reset to 0, so the
    next message is sent without delay; if a message is submitted first,
    the old timer hands it to the socket, after the delay that was set for
    the message dropped by the clear.  When its [send] throws, [clear()]
    throws before it empties the queue, and the pending timer goes on with
    the old queue. *)
Theorem clear_leaves_timer_pending (s : CallMediaQueue) (d : number) (n : string) :
  isSending s = true -> timers s = [d] ->
  js_ge (num_of_nat 0) (bufferLimit s) = false ->
  timers (step call_clear s) = [d]
  /\ (send_throws (socket s) (clear_wire (streamSid s)) = None ->
      (let s' := steps [call_clear; timer; call_mark n] s in
       timers s' = [num_of_Z 0]
       /\ queue s' = [mark_message n]
       /\ socket s' = socket s ++ [clear_wire (streamSid s)])
      /\ (let s' := steps [call_clear; call_mark n; timer] s in
          timers (steps [call_clear; call_mark n] s) = [d]
          /\ queue s' = []
          /\ socket s' = socket s ++ [clear_wire (streamSid s);
                                      wire_of (streamSid s) (mark_message n)]))
  /\ (forall error,
        send_throws (socket s) (clear_wire (streamSid s)) = Some error ->
        run call_clear s
        = (inl error, set_socket (socket s ++ [clear_wire (streamSid s)]) s)
        /\ forall m rest,
             queue s = m :: rest ->
             let s' := steps [call_clear; timer] s in
             queue s' = rest
             /\ socket s' = socket s ++ [clear_wire (streamSid s);
                                         wire_of (streamSid s) m]).
Proof.
  intros Hs Ht Hroom.
  split; [unfold step, run; destruct (clear_frame s) as (_ & _ & _ & -> & _); exact Ht|].
  split.
  - intros Hsend.
    assert (Hc : step call_clear s
                 = set_queue [] (set_socket (socket s ++ [clear_wire (streamSid s)]) s)).
    { unfold step, run. rewrite clear_spec, Hsend. reflexivity. }
    split.
    + simpl steps. rewrite Hc.
      match goal with |- context [step timer ?c] =>
        assert (E1 : step timer c
                     = set_packetDuration (num_of_Z 0)
                         (set_isSending false (set_timers [] c)))
      end.
      { rewrite timer_step. simpl. rewrite Ht. reflexivity. }
      rewrite E1.
      unfold step at 1. unfold run, mark_. rewrite enqueue_spec. simpl queue. simpl length.
      simpl bufferLimit. rewrite Hroom, processNext_spec. simpl. repeat split.
    + simpl steps. rewrite Hc.
      match goal with |- context [step (call_mark n) ?c] =>
        assert (E1 : step (call_mark n) c = set_queue [mark_message n] c)
      end.
      { unfold step at 1. unfold run, mark_. rewrite enqueue_spec. simpl queue.
        simpl length. simpl bufferLimit. rewrite Hroom, processNext_spec. simpl.
        rewrite Hs. reflexivity. }
      rewrite E1. split; [simpl; exact Ht|].
      match goal with |- context [step timer ?c] =>
        destruct (timer_sends_front c (mark_message n) [] d Ht eq_refl)
          as (Fq & Fs & _)
      end.
      rewrite Fq, Fs. simpl. rewrite <- app_assoc. split; reflexivity.
  - intros error Hsend.
    assert (Hc : run call_clear s
                 = (inl error, set_socket (socket s ++ [clear_wire (streamSid s)]) s)).
    { unfold run. rewrite clear_spec, Hsend. reflexivity. }
    split; [exact Hc|].
    intros m rest Hq. simpl steps. unfold step at 2. rewrite Hc. cbn [snd].
    match goal with |- context [step timer ?c] =>
      destruct (timer_sends_front c m rest d Ht Hq) as (Fq & Fs & _)
    end.
    rewrite Fq, Fs. simpl. rewrite <- app_assoc. split; reflexivity.
Qed.

(** X18: apart from NaN, [setVolume] checks its argument as its message
    says: what is not a number, a number below 0 and a number above 1 (the
    infinities included) are refused with the object unchanged, and a
    binary64 value between 0 and 1 other than [-0] is stored as it is. *)
Theorem setVolume_checks_all_but_NaN (s : CallMediaQueue) :
  (forall v, typeof_number v = None -> setVolume v s = (inl invalid_volume, s))
  /\ (forall g, js_lt g (num_of_Z 0) = true \/ js_gt g (num_of_Z 1) = true ->
                setVolume (VNumber g) s = (inl invalid_volume, s))
  /\ setVolume (VNumber (S754_infinity false)) s = (inl invalid_volume, s)
  /\ setVolume (VNumber (S754_infinity true)) s = (inl invalid_volume, s)
  /\ (forall g, valid_binary prec emax g = true -> g <> S754_zero true ->
                js_le (num_of_Z 0) g = true -> js_le g (num_of_Z 1) = true ->
                setVolume (VNumber g) s = (inr tt, set_volumeLevel g s)).
Proof.
  split; [|split; [|split; [|split]]].
  - intros v Hv. apply setVolume_rejects. left. exact Hv.
  - intros g Hg. apply setVolume_rejects. right. eauto.
  - reflexivity.
  - reflexivity.
  - intros g Vg Hz H0 H1. apply setVolume_stores_exact; assumption.
Qed.

End Properties.

(** * The properties on concrete inputs

    The socket is [open_socket] where no other is named. *)

(** The same on a run: one payload queued at volume 1, the volume set to
    0.5, the packet sent. *)
Lemma queued_payloads_unchanged_by_setVolume_witness :
  let s := steps [call_media "IE4="] (constructor "S") in
  let s2 := snd (sendNext (step (call_setVolume (VNumber (js_div (num_of_Z 1) (num_of_Z 2)))) s)) in
  w_media <$> socket s2 = [Some {| payload := "IE4=" |}].
Proof.
  intros s s2.
  pose proof (queued_payloads_unchanged_by_setVolume
                (VNumber (js_div (num_of_Z 1) (num_of_Z 2))) s
                {| event := ev_media; media := Some {| payload := "IE4=" |}; mark := None |}
                [] eq_refl) as (_ & _ & Hsock & _).
  fold s2 in Hsock. rewrite Hsock. reflexivity.
Defined.

(** At volume 0.5, the samples 20000, -3 and 32767 followed by one odd
    byte. *)
Lemma adjustVolume_scales_and_clamps_witness :
  exists out,
    adjustVolume (pcm16 [20000; -3; 32767] ++ [Byte.xff])
                 (set_volumeLevel one_half (constructor "S"))
    = (inr out, set_volumeLevel one_half (constructor "S"))
    /\ Buffer.readInt16LE out 0 = inr 10000
    /\ Buffer.readInt16LE out 2 = inr (-2)
    /\ Buffer.readInt16LE out 4 = inr 16383.
Proof.
  destruct (adjustVolume_scales_and_clamps
              (set_volumeLevel one_half (constructor "S"))
              (pcm16 [20000; -3; 32767] ++ [Byte.xff])
              eq_refl eq_refl eq_refl) as (out & Hout & _ & Hs & _).
  exists out. split; [exact Hout|].
  repeat split.
  - exact (proj1 (proj2 (Hs 0%nat 20000 eq_refl))).
  - exact (proj1 (proj2 (Hs 1%nat (-3) eq_refl))).
  - exact (proj1 (proj2 (Hs 2%nat 32767 eq_refl))).
Defined.

(** C1, where the code departs from it: with the volume level set to 0.5,
    [media("IE4=")] (one sample of value 20000) puts the payload in the
    queue as it came, although [adjustVolume] at 0.5 would turn it into one
    sample of value 10000, that is ["ECc="].  No message goes to the
    socket on the way, so this holds on every socket. *)
Theorem media_is_queued_without_gain `{ws : WebSocket} :
  let s := steps [call_setVolume (VNumber one_half); call_media "IE4="] (constructor "S") in
  volumeLevel s = one_half
  /\ queue s = [media_message "IE4="]
  /\ base64_decode "IE4=" = pcm16 [20000]
  /\ adjustVolume_at one_half (pcm16 [20000]) = inr (pcm16 [10000])
  /\ base64_encode (pcm16 [10000]) = "ECc="%string.
Proof. vm_compute. repeat split. Qed.

(** C4 as stated fails: after a packet of 640 bytes was sent (duration 20),
    draining a media message whose payload is the empty string leaves the
    duration at 20, while the formula gives 0 for its 0 bytes. *)
Lemma drained_empty_payload_keeps_duration :
  exists s p rest,
    queue s = media_message p :: rest
    /\ packetDuration (snd (sendNext s)) = num_of_Z 20
    /\ durationMs (length (base64_decode p)) = num_of_Z 0
    /\ packetDuration (snd (sendNext s)) <> durationMs (length (base64_decode p)).
Proof.
  exists two_payloads, ""%string, []. vm_compute. repeat split. discriminate.
Qed.

(** A packet of 64 bytes lasts 2 ms. *)
Lemma drained_media_sets_duration_witness :
  packetDuration (snd (sendNext (steps [call_media (silence 64)] (constructor "S"))))
  = num_of_Z 2.
Proof.
  destruct (drained_media_sets_duration
              (steps [call_media (silence 64)] (constructor "S")) (silence 64) [])
    as (Hd & _ & _).
  - vm_compute. reflexivity.
  - rewrite Hd. vm_compute. reflexivity.
Defined.

(** Capacity 2: of five offers the first two are kept, and a longer run of
    calls and timers never holds more than two. *)
Lemma queue_bounded_drop_newest_witness :
  let s := step (call_setBufferLimit (VNumber (num_of_nat 2))) (constructor "S") in
  queue (offer_all five_offers s) = [media_message "AAAA"; media_message "AQID"]
  /\ (length (queue (steps [call_media "AAAA"; call_media "AQID"; call_media "BAUG";
                            timer; call_mark "m"; call_media "BwgJ"; call_clear;
                            call_media "AAAA"] s)) <= 2)%nat.
Proof.
  intros s.
  destruct (queue_bounded_drop_newest 2 ltac:(vm_compute; reflexivity))
    as (_ & _ & Hc & Hd).
  split.
  - rewrite (proj1 (Hc s five_offers eq_refl eq_refl)). reflexivity.
  - apply Hd; [reflexivity|simpl; lia|].
    repeat constructor.
Defined.

(** C5 as stated fails: on a socket whose [send] throws, [clear()] throws
    what [send] threw and the queue still holds its message. *)
Lemma clear_on_throwing_send_keeps_queue :
  run (ws := connecting_socket) call_clear one_mark_queued
  = (inl not_open, set_socket [clear_wire "S"] one_mark_queued)
  /\ queue (step (ws := connecting_socket) call_clear one_mark_queued)
     = [mark_message "a"]
  /\ length (queue (step (ws := connecting_socket) call_clear one_mark_queued))
     <> 0%nat.
Proof. vm_compute. repeat split. discriminate. Qed.

(** A socket that takes every message never stalls the pacer. *)
Lemma pacer_invariant_witness :
  pacer_ok (steps [call_mark "a"; call_mark "b"; timer; call_clear; timer]
                  (constructor "S")).
Proof.
  exact (proj1 (proj2 (pacer_invariant "S"
                         [call_mark "a"; call_mark "b"; timer; call_clear; timer]))
               (fun _ _ => eq_refl)).
Defined.

(** Three messages queued, the first timer pending: on a socket that takes
    every message, three timer events send them in order. *)
Lemma timers_drain_queue_in_order_witness :
  let s := steps [call_media "AAAA"; call_mark "m"; call_media "AQID"] (constructor "S") in
  w_event <$> socket (steps [timer; timer; timer] s) = [ev_media; ev_mark; ev_media]
  /\ queue (steps [timer; timer; timer] s) = [].
Proof.
  intros s.
  destruct (timers_drain_queue_in_order s) as ((Hs & Hq & _) & _).
  - left. split; [reflexivity|]. eexists. reflexivity.
  - reflexivity.
  - split; [|exact Hq]. change (steps [timer; timer; timer] s)
      with (steps (replicate (length (queue s)) timer) s).
    rewrite Hs. reflexivity.
Defined.

(** [setVolume("loud")] throws and changes nothing. *)
Lemma only_setters_throw_witness :
  snd (run (call_setVolume (VString "loud")) (constructor "S")) = constructor "S".
Proof.
  destruct (only_setters_throw (call_setVolume (VString "loud")) (constructor "S")
              invalid_volume eq_refl) as [(Hsame & _)|(Hclear & _)].
  - exact Hsame.
  - discriminate Hclear.
Defined.

(** A silent gap between two samples can be cut anywhere between samples. *)
Lemma adjustVolume_of_concatenation_witness :
  exists out_a out_b,
    adjustVolume (pcm16 [20000; -3]) (set_volumeLevel one_half (constructor "S"))
    = (inr out_a, set_volumeLevel one_half (constructor "S"))
    /\ adjustVolume (pcm16 [32767]) (set_volumeLevel one_half (constructor "S"))
       = (inr out_b, set_volumeLevel one_half (constructor "S"))
    /\ adjustVolume (pcm16 [20000; -3] ++ pcm16 [32767])
                    (set_volumeLevel one_half (constructor "S"))
       = (inr (out_a ++ out_b), set_volumeLevel one_half (constructor "S")).
Proof.
  apply (adjustVolume_of_concatenation
           (set_volumeLevel one_half (constructor "S"))
           (pcm16 [20000; -3]) (pcm16 [32767])).
  exists 2%nat. reflexivity.
Defined.

(** Three messages queued, the limit lowered to 1: nothing is evicted and
    two more offers are dropped. *)
Lemma lowering_limit_keeps_queue_and_blocks_offers_witness :
  let s := steps [call_mark "a"; call_mark "b"; call_mark "c"] (constructor "S") in
  let s1 := step (call_setBufferLimit (VNumber (num_of_nat 1))) s in
  queue (offer_all [mark_message "d"; mark_message "e"] s1) = queue s
  /\ length (queue s) = 3%nat.
Proof.
  intros s s1.
  destruct (lowering_limit_keeps_queue_and_blocks_offers 1 s
              [mark_message "d"; mark_message "e"]) as (_ & _ & Hq & _).
  - vm_compute. reflexivity.
  - vm_compute. lia.
  - split; [exact Hq|reflexivity].
Defined.


(** A fresh object with one mark queued, cleared, on a socket that takes
    every message. *)
Lemma clear_leaves_timer_pending_witness :
  let s := steps [call_mark "a"] (constructor "S") in
  w_event <$> socket (steps [call_clear; call_mark "b"; timer] s) = [ev_clear; ev_mark].
Proof.
  intros s.
  destruct (clear_leaves_timer_pending s (num_of_Z 0) "b" eq_refl eq_refl eq_refl)
    as (_ & Hsent & _).
  destruct (Hsent eq_refl) as (_ & _ & _ & Hs).
  rewrite Hs. reflexivity.
Defined.
